(** * SeqContainer: a shallow embedding of Oliver's expression-templated
      sequence container

    The development follows the three source files:
    - [Operator_Templates.h]: the operation catalogue ([Add_Op] ... [RightShift_Op]),
      each with its four [apply] overloads;
    - [Expression_Template.h]: the [ExprTemplate] node, its [size] and [operator[]];
    - the [SeqContainer] class template: the constructors, resize, push,
      pop and insert, indexed read and write, shift and cshift, apply, the
      conversion to [bool], comparison, the unary operators, the assignments
      from a container and from an expression node, and the stream operator.

    Conventions of the model.
    - [std::size_t] is [N], and every addition that the source performs on it
      is reduced modulo 2^64 ([sz_add]); [int] is [Z], converted to
      [std::size_t] modulo 2^64 ([to_size_t]).
    - A [std::vector] is a [list]; allocation always succeeds (there is no
      [max_size()] and no [std::bad_alloc]), for every size that is a
      [std::size_t].  Its unchecked [operator[]] is undefined outside the
      storage: the model returns [Err out_of_range] there.
    - Member functions that mutate [*this] take the container and return the
      new one.  An expression node holds its operands by reference: the
      containers it names live in a store, and a node may name one container
      twice. *)

From stdpp Require Import base list numbers gmap.
From Stdlib Require Import ZArith Lia Ascii.

(** ** Outcomes of an evaluation *)

(** What the C++ program does when it leaves defined behaviour. *)
Inductive error : Type :=
  | out_of_range       (* unchecked vector subscript outside the storage *)
  | division_by_zero   (* integer [/] or [%] with a zero divisor *)
  | quotient_overflow  (* [INTMAX_MIN / -1] and [INTMAX_MIN % -1] *)
  | shift_count        (* shift count negative or not below the width *)
  | dangling_reference. (* a reference to no live container *)

Inductive result (A : Type) : Type :=
  | Ok (a : A)
  | Err (e : error).
Arguments Ok {A} a.
Arguments Err {A} e.

#[global] Instance result_ret : MRet result := fun A a => Ok a.
#[global] Instance result_bind : MBind result := fun A B f m =>
  match m with
  | Ok a => f a
  | Err e => Err e
  end.

Definition is_Ok {A} (r : result A) : Prop := exists a, r = Ok a.

(** ** Machine integers *)

Module Int.

Definition SIZE_MAX : N := 2 ^ 64 - 1.
Definition INT_MIN : Z := - 2 ^ 31.
Definition INT_MAX : Z := 2 ^ 31 - 1.
Definition INTMAX_MIN : Z := - 2 ^ 63.
Definition INTMAX_MAX : Z := 2 ^ 63 - 1.

(** [a + b] on [std::size_t]. *)
Definition sz_add (a b : N) : N := ((a + b) mod 2 ^ 64)%N.

(** Conversion of a signed integer to [std::size_t]. *)
Definition to_size_t (z : Z) : N := Z.to_N (z mod 2 ^ 64).

(** Two's complement reduction to a signed integer of [w] bits. *)
Definition wrap (w : Z) (z : Z) : Z :=
  ((z + 2 ^ (w - 1)) mod 2 ^ w - 2 ^ (w - 1))%Z.

(** [std::abs(int)]: the magnitude, with the two's complement result at
    [INT_MIN] (whose magnitude is not an [int]). *)
Definition std_abs (z : Z) : Z := wrap 32 (Z.abs z).

End Int.

(** ** The element type

    [SeqContainer<VALUE, IMPL>] and the catalogue are templates over the
    element type; what they use of it is collected in a class.  A compound
    operator [a op= b] of the element type stores [a op b] in [a]. *)

Class Element (T : Type) : Type := {
  value_init : T;                 (* [T{}], [value_type{0}] and the literal [0] *)
  to_bool : T -> bool;            (* contextual conversion, as in [if (b)] *)
  plus : T -> T -> result T;      (* [a + b] *)
  minus : T -> T -> result T;     (* [a - b] *)
  times : T -> T -> result T;     (* [a * b] *)
  divide : T -> T -> result T;    (* [a / b] *)
  modulo : T -> T -> result T;    (* [a % b] *)
  bit_and : T -> T -> result T;   (* [a & b] *)
  bit_or : T -> T -> result T;    (* [a | b] *)
  bit_xor : T -> T -> result T;   (* [a ^ b] *)
  shift_left : T -> T -> result T;   (* [a << b] *)
  shift_right : T -> T -> result T;  (* [a >> b] *)
  unary_plus : T -> T;            (* [+a] *)
  negate : T -> T;                (* [-a] *)
  complement : T -> T             (* [~a] *)
}.

(** [intmax_t], the default [VALUE].  Arithmetic is the two's complement
    one of the usual targets; division and remainder are undefined on a zero
    divisor and on [INTMAX_MIN / -1], shifts on a count outside [0, 64). *)
Module Intmax.

Definition intmax_t : Type := Z.

Definition wrap64 (z : Z) : Z := Int.wrap 64 z.

Definition checked_quot (f : Z -> Z -> Z) (a b : Z) : result Z :=
  if (b =? 0)%Z then Err division_by_zero
  else if ((a =? Int.INTMAX_MIN) && (b =? -1))%Z then Err quotient_overflow
  else Ok (f a b).

Definition checked_shift (f : Z -> Z -> Z) (a b : Z) : result Z :=
  if ((0 <=? b) && (b <? 64))%Z then Ok (wrap64 (f a b)) else Err shift_count.

#[global] Instance intmax_element : Element intmax_t := {|
  value_init := 0%Z;
  to_bool := fun a => negb (a =? 0)%Z;
  plus := fun a b => Ok (wrap64 (a + b));
  minus := fun a b => Ok (wrap64 (a - b));
  times := fun a b => Ok (wrap64 (a * b));
  divide := checked_quot Z.quot;
  modulo := checked_quot Z.rem;
  bit_and := fun a b => Ok (Z.land a b);
  bit_or := fun a b => Ok (Z.lor a b);
  bit_xor := fun a b => Ok (Z.lxor a b);
  shift_left := checked_shift Z.shiftl;
  shift_right := checked_shift Z.shiftr;
  unary_plus := fun a => a;
  negate := fun a => wrap64 (- a);
  complement := Z.lnot
|}.

End Intmax.

(** ** The operation catalogue ([Operator_Templates.h]) *)

(** The four [apply] overloads of a catalogue struct, by the value category
    of the two arguments. *)
Inductive overload : Type :=
  | const_const     (* [apply(T const& a, T const& b)] *)
  | rvalue_const    (* [apply(T&& a, T const& b)] *)
  | const_rvalue    (* [apply(T const& a, T&& b)] *)
  | rvalue_rvalue.  (* [apply(T&& a, T&& b)] *)

(** The catalogue operations an expression node can carry. *)
Inductive BinaryOp : Type :=
  | Add_Op | Sub_Op | Mul_Op | Div_Op | Mod_Op
  | And_Op | Or_Op | Xor_Op | LeftShift_Op | RightShift_Op.

Section Catalogue.
Context {T : Type} `{Element T}.

Definition Add_Op_apply (o : overload) (a b : T) : result T :=
  match o with
  | const_const => plus a b      (* return a + b; *)
  | rvalue_const => plus a b     (* a += b; return std::move(a); *)
  | const_rvalue => plus b a     (* b += a; return std::move(b); *)
  | rvalue_rvalue => plus a b    (* a += b; return std::move(a); *)
  end.

Definition Sub_Op_apply (o : overload) (a b : T) : result T :=
  match o with
  | const_const => minus a b     (* return a - b; *)
  | rvalue_const => minus a b    (* a -= b; return std::move(a); *)
  | const_rvalue => minus a b    (* return a - b; *)
  | rvalue_rvalue => minus a b   (* a -= b; return std::move(a); *)
  end.

Definition Mul_Op_apply (o : overload) (a b : T) : result T :=
  match o with
  | const_const => times a b     (* return a * b; *)
  | rvalue_const => times a b    (* a *= b; return std::move(a); *)
  | const_rvalue => times b a    (* b *= a; return std::move(b); *)
  | rvalue_rvalue => times a b   (* a *= b; return std::move(a); *)
  end.

Definition Div_Op_apply (o : overload) (a b : T) : result T :=
  match o with
  | const_const => divide a b    (* return a / b; *)
  | rvalue_const => divide a b   (* a /= b; return std::move(a); *)
  | const_rvalue => divide a b   (* return a / b; *)
  | rvalue_rvalue => divide a b  (* a /= b; return std::move(a); *)
  end.

Definition Mod_Op_apply (o : overload) (a b : T) : result T :=
  match o with
  | const_const =>               (* if (b) { return a % b; } return 0; *)
      if to_bool b then modulo a b else Ok value_init
  | rvalue_const => modulo a b   (* a %= b; return std::move(a); *)
  | const_rvalue => modulo a b   (* return a % b; *)
  | rvalue_rvalue => modulo a b  (* a %= b; return std::move(a); *)
  end.

Definition And_Op_apply (o : overload) (a b : T) : result T :=
  match o with
  | const_const => bit_and a b   (* return a & b; *)
  | rvalue_const => bit_and a b  (* a &= b; return std::move(a); *)
  | const_rvalue => bit_and b a  (* b &= a; return std::move(b); *)
  | rvalue_rvalue => bit_and a b (* a &= b; return std::move(a); *)
  end.

Definition Or_Op_apply (o : overload) (a b : T) : result T :=
  match o with
  | const_const => bit_or a b    (* return a | b; *)
  | rvalue_const => bit_or a b   (* a |= b; return std::move(a); *)
  | const_rvalue => bit_or b a   (* b |= a; return std::move(b); *)
  | rvalue_rvalue => bit_or a b  (* a |= b; return std::move(a); *)
  end.

Definition Xor_Op_apply (o : overload) (a b : T) : result T :=
  match o with
  | const_const => bit_xor a b   (* return a ^ b; *)
  | rvalue_const => bit_xor a b  (* a ^= b; return std::move(a); *)
  | const_rvalue => bit_xor b a  (* b ^= a; return std::move(b); *)
  | rvalue_rvalue => bit_xor a b (* a ^= b; return std::move(a); *)
  end.

(** The third overload of [LeftShift_Op] is written [a >>= b; return
    std::move(a);] on its [T const& a]: the value it denotes is [a >> b].
    (Assigning through the const reference, it only instantiates for an
    element type whose [operator>>=] is a const member.) *)
Definition LeftShift_Op_apply (o : overload) (a b : T) : result T :=
  match o with
  | const_const => shift_left a b    (* return a << b; *)
  | rvalue_const => shift_left a b   (* a <<= b; return std::move(a); *)
  | const_rvalue => shift_right a b  (* a >>= b; return std::move(a); *)
  | rvalue_rvalue => shift_left a b  (* a <<= b; return std::move(a); *)
  end.

(** The third overload of [RightShift_Op] has the same body: it assigns
    through its [T const& a] as well, and the value it denotes, where it
    instantiates, is that of the other three. *)
Definition RightShift_Op_apply (o : overload) (a b : T) : result T :=
  match o with
  | const_const => shift_right a b   (* return a >> b; *)
  | rvalue_const => shift_right a b  (* a >>= b; return std::move(a); *)
  | const_rvalue => shift_right a b  (* a >>= b; return std::move(a); *)
  | rvalue_rvalue => shift_right a b (* a >>= b; return std::move(a); *)
  end.

(** [BinaryOp::apply], the static dispatch of an expression node. *)
Definition apply_op (op : BinaryOp) : overload -> T -> T -> result T :=
  match op with
  | Add_Op => Add_Op_apply
  | Sub_Op => Sub_Op_apply
  | Mul_Op => Mul_Op_apply
  | Div_Op => Div_Op_apply
  | Mod_Op => Mod_Op_apply
  | And_Op => And_Op_apply
  | Or_Op => Or_Op_apply
  | Xor_Op => Xor_Op_apply
  | LeftShift_Op => LeftShift_Op_apply
  | RightShift_Op => RightShift_Op_apply
  end.

(** The element operator that the catalogue entry stands for. *)
Definition element_op (op : BinaryOp) : T -> T -> result T :=
  match op with
  | Add_Op => plus
  | Sub_Op => minus
  | Mul_Op => times
  | Div_Op => divide
  | Mod_Op => modulo
  | And_Op => bit_and
  | Or_Op => bit_or
  | Xor_Op => bit_xor
  | LeftShift_Op => shift_left
  | RightShift_Op => shift_right
  end.

End Catalogue.

(** The overloads whose body assigns to its [T const&] parameter: the
    third overload of the two shift structs, [a >>= b] on [T const& a].
    Such a body is ill-formed for a built-in element type, [intmax_t]
    included: a program that selects the overload does not build, and the
    value [apply_op] gives there is only that of an element type whose
    [operator>>=] is a const member.  Every other overload assigns to a
    [T&&] parameter or to nothing. *)
Definition assigns_to_const (op : BinaryOp) (o : overload) : bool :=
  match op, o with
  | LeftShift_Op, const_rvalue => true   (* a >>= b; with T const& a *)
  | RightShift_Op, const_rvalue => true  (* a >>= b; with T const& a *)
  | _, _ => false
  end.

(** ** Loops *)

(** [for (std::size_t i = first; ...; ++i) body] run for [n] iterations:
    the state is threaded through, a failing iteration ends the run. *)
Fixpoint for_loop {S : Type} (n : nat) (i : N)
    (body : N -> S -> result S) (s : S) : result S :=
  match n with
  | O => Ok s
  | S n' => s' ← body i s; for_loop n' (i + 1)%N body s'
  end.

(** [for (std::size_t i = 0; i < limit; ++i) body]. *)
Definition for_range {S : Type} (limit : N)
    (body : N -> S -> result S) (s : S) : result S :=
  for_loop (N.to_nat limit) 0%N body s.

(** [auto i = limit + n; while (i-- > limit) body]: the body sees
    [limit + n - 1], ..., [limit]. *)
Fixpoint while_down {S : Type} (n : nat) (limit : N)
    (body : N -> S -> result S) (s : S) : result S :=
  match n with
  | O => Ok s
  | S n' => s' ← body (limit + N.of_nat n')%N s; while_down n' limit body s'
  end.

(** ** [std::vector] *)

Section Vector.
Context {T : Type}.

(** [v[i]] read: unchecked. *)
Definition vector_index (v : list T) (i : N) : result T :=
  match v !! N.to_nat i with
  | Some x => Ok x
  | None => Err out_of_range
  end.

(** [v[i] = x]: unchecked. *)
Definition vector_assign (v : list T) (i : N) (x : T) : result (list T) :=
  match v !! N.to_nat i with
  | Some _ => Ok (<[N.to_nat i := x]> v)
  | None => Err out_of_range
  end.

(** [v.resize(n, x)]: truncates, or appends copies of [x]. *)
Definition vector_resize (n : N) (x : T) (v : list T) : list T :=
  take (N.to_nat n) v ++ replicate (N.to_nat n - length v) x.

(** [std::ranges::rotate(v, v.begin() + middle)]: the element at [middle]
    becomes the first one. *)
Definition std_rotate (v : list T) (middle : N) : list T :=
  drop (N.to_nat middle) v ++ take (N.to_nat middle) v.

(** What an elementwise pass computes: a loop body that rewrites slot [i]
    by a function [h] of its content ... *)
Definition pointwise (h : T -> T) (body : N -> list T -> result (list T)) : Prop :=
  forall i s x, s !! N.to_nat i = Some x ->
    body i s = Ok (<[N.to_nat i := h x]> s).

(** ... leaves [h] applied to the slots [first, first + n), the others
    untouched. *)
Definition pass (h : T -> T) (first n : nat) (s : list T) : list T :=
  take first s ++ (h <$> take n (drop first s)) ++ drop (first + n) s.

(** A loop body that rewrites slot [i] by a fallible function of the index
    and of the content. *)
Definition slotwise (h : N -> T -> result T)
    (body : N -> list T -> result (list T)) : Prop :=
  forall i s x, s !! N.to_nat i = Some x ->
    body i s = v ← h i x; Ok (<[N.to_nat i := v]> s).

End Vector.

(** Modelled from the spec: [max_val] is called by [apply] and by every
    compound assignment but is defined in none of the source files; the spec
    gives the bound of these passes as [max(this.size(), other.size())]. *)
Definition max_val (a b : N) : N := N.max a b.

(** [std::partial_ordering]. *)
Inductive partial_ordering : Type := less | equivalent | greater | unordered.

(** ** The container *)

Section Container.
Context {T : Type} `{Element T}.

Record SeqContainer : Type := mk_seq { _sequence : list T }.

(** [static const value_type def_value = VALUE{}]. *)
Definition def_value : T := value_init.

Definition size (c : SeqContainer) : N := N.of_nat (length (_sequence c)).

(** [resize(std::size_t size, value_type value)]. *)
Definition resize_fill (sz : N) (value : T) (c : SeqContainer) : SeqContainer :=
  if (size c <=? sz)%N then
    mk_seq (vector_resize sz value (_sequence c))
  else if (0 <? sz)%N then
    mk_seq (vector_resize sz value_init (_sequence c))
  else
    mk_seq [].

(** [resize(std::size_t size)]. *)
Definition resize (sz : N) (c : SeqContainer) : SeqContainer :=
  resize_fill sz value_init c.

(** [operator[](std::size_t index) const]. *)
Definition op_index_const (c : SeqContainer) (index : N) : result T :=
  if (index <? size c)%N then vector_index (_sequence c) index
  else Ok def_value.

(** [operator[](std::size_t index)]: the container after the call; the
    reference it returns designates slot [index] of it. *)
Definition op_index (c : SeqContainer) (index : N) : result SeqContainer :=
  let c' := if (size c <=? index)%N then resize (Int.sz_add index 1) c else c in
  _ ← vector_index (_sequence c') index;
  Ok c'.

(** [c[index] = value] on a mutable container. *)
Definition write (c : SeqContainer) (index : N) (value : T) : result SeqContainer :=
  c' ← op_index c index;
  s ← vector_assign (_sequence c') index value;
  Ok (mk_seq s).

(** [_sequence[i] = f(i, _sequence[i])], one step of an elementwise pass. *)
Definition update_slot (f : N -> T -> result T) (i : N) (s : list T) : result (list T) :=
  x ← vector_index s i;
  y ← f i x;
  vector_assign s i y.

(** [_sequence[i] = value]. *)
Definition store_slot (value : T) (i : N) (s : list T) : result (list T) :=
  vector_assign s i value.

(** *** Rotations *)

Definition rotate_left (shift : N) (c : SeqContainer) : SeqContainer :=
  if (0 <? size c)%N then
    let shift := (shift mod size c)%N in
    mk_seq (std_rotate (_sequence c) (size c - shift))
  else c.

Definition rotate_right (shift : N) (c : SeqContainer) : SeqContainer :=
  if (0 <? size c)%N then
    let shift := (shift mod size c)%N in
    mk_seq (std_rotate (_sequence c) shift)
  else c.

Definition rotate_left_and_drop (shift : N) (c : SeqContainer) : result SeqContainer :=
  let c := rotate_left shift c in
  if (0 <? size c)%N then
    let shift := (shift mod size c)%N in
    s ← for_range shift (store_slot value_init) (_sequence c);
    Ok (mk_seq s)
  else Ok c.

Definition rotate_right_and_drop (shift : N) (c : SeqContainer) : result SeqContainer :=
  let c := rotate_right shift c in
  if (0 <? size c)%N then
    let shift := (shift mod size c)%N in
    let limit := (size c - shift)%N in
    s ← while_down (N.to_nat (size c - limit)) limit (store_slot value_init) (_sequence c);
    Ok (mk_seq s)
  else Ok c.

(** [shift(int index)]. *)
Definition shift (index : Z) (c : SeqContainer) : result SeqContainer :=
  if (0 <? index)%Z then rotate_left_and_drop (Int.to_size_t index) c
  else rotate_right_and_drop (Int.to_size_t (Int.std_abs index)) c.

(** [cshift(int index)]. *)
Definition cshift (index : Z) (c : SeqContainer) : SeqContainer :=
  if (0 <? index)%Z then rotate_left (Int.to_size_t index) c
  else rotate_right (Int.to_size_t (Int.std_abs index)) c.

(** *** Comparison *)

Definition op_spaceship (a b : SeqContainer) : partial_ordering :=
  if (size b <? size a)%N then greater
  else if (size a <? size b)%N then less
  else equivalent.

Definition op_eq (a b : SeqContainer) : bool :=
  match op_spaceship a b with
  | equivalent => true
  | _ => false
  end.

End Container.

Arguments SeqContainer T : clear implicits.

Section Elementwise.
Context {T : Type} `{Element T}.

(** *** [apply] *)

(** [apply(value_type func(value_type))]; the overload on
    [const value_type&] has the same body. *)
Definition apply_unary (func : T -> T) (c : SeqContainer T) : result (SeqContainer T) :=
  let limit := size c in
  s ← for_range limit (update_slot (fun _ x => Ok (func x))) (_sequence c);
  Ok (mk_seq s).

(** One step of the binary [apply]:
    [_sequence[i] = func(_sequence[i], b._sequence[i])]. *)
Definition apply_slot (func : T -> T -> T) (b : SeqContainer T)
    (i : N) (s : list T) : result (list T) :=
  x ← vector_index s i;
  y ← vector_index (_sequence b) i;
  vector_assign s i (func x y).

(** [apply(const SeqContainer& b, value_type func(value_type, value_type))];
    the overload on [const value_type&] has the same body. *)
Definition apply_binary (func : T -> T -> T) (c b : SeqContainer T)
    : result (SeqContainer T) :=
  let limit := max_val (size c) (size b) in
  let c1 := if (size c <? limit)%N then resize (Int.sz_add limit 1) c else c in
  s ← for_range limit (apply_slot func b) (_sequence c1);
  Ok (mk_seq s).

(** *** Unary operators: the receiver after the call, and the value returned *)

Definition op_unary_plus (c : SeqContainer T) : result (SeqContainer T * SeqContainer T) :=
  let a := c in
  let limit := size a in
  s ← for_range limit (update_slot (fun _ x => Ok (unary_plus x))) (_sequence a);
  Ok (c, mk_seq s).

Definition op_neg (c : SeqContainer T) : result (SeqContainer T * SeqContainer T) :=
  let a := c in
  let limit := size a in
  s ← for_range limit (update_slot (fun _ x => Ok (negate x))) (_sequence a);
  Ok (c, mk_seq s).

Definition op_compl (c : SeqContainer T) : result (SeqContainer T * SeqContainer T) :=
  let limit := size c in
  s ← for_range limit (update_slot (fun _ x => Ok (complement x))) (_sequence c);
  Ok (mk_seq s, mk_seq s).

(** *** Compound assignment from a container

    The ten operators share one body up to the element operator:
    [_sequence[i] op= b[i]], whose right operand is evaluated first. *)

Definition compound_slot (op : T -> T -> result T) (b : SeqContainer T)
    (i : N) (s : list T) : result (list T) :=
  y ← op_index_const b i;
  x ← vector_index s i;
  v ← op x y;
  vector_assign s i v.

Definition compound_assign (op : T -> T -> result T) (c b : SeqContainer T)
    : result (SeqContainer T) :=
  let limit := max_val (size c) (size b) in
  let c1 := if (size c <? limit)%N then resize (Int.sz_add limit 1) c else c in
  s ← for_range limit (compound_slot op b) (_sequence c1);
  Ok (mk_seq s).

Definition op_add_assign := compound_assign plus.          (* operator+= *)
Definition op_sub_assign := compound_assign minus.         (* operator-= *)
Definition op_mul_assign := compound_assign times.         (* operator*= *)
Definition op_div_assign := compound_assign divide.        (* operator/= *)
Definition op_mod_assign := compound_assign modulo.        (* operator%= *)
Definition op_and_assign := compound_assign bit_and.       (* operator&= *)
Definition op_or_assign := compound_assign bit_or.         (* operator|= *)
Definition op_xor_assign := compound_assign bit_xor.       (* operator^= *)
Definition op_shl_assign := compound_assign shift_left.    (* operator<<= *)
Definition op_shr_assign := compound_assign shift_right.   (* operator>>= *)

End Elementwise.

(** ** Expression nodes ([Expression_Template.h])

    A node holds its operands by reference, so the containers live in a
    store and the operands name them. *)

Definition loc : Type := nat.

Section Expression.
Context {T : Type} `{Element T}.

Definition store : Type := gmap loc (SeqContainer T).

(** The operand types of [ExprTemplate<LeftExpr, BinaryOp, RightExpr>]. *)
Inductive Expr : Type :=
  | const_ref (x : loc)      (* [const SeqContainer&] *)
  | mutable_ref (x : loc)    (* [SeqContainer&], [SeqContainer&&] *)
  | ExprTemplate (l : Expr) (op : BinaryOp) (r : Expr).

Definition deref (σ : store) (x : loc) : result (SeqContainer T) :=
  match σ !! x with
  | Some c => Ok c
  | None => Err dangling_reference
  end.

(** [size()] of an operand. *)
Fixpoint expr_size (e : Expr) (σ : store) : result N :=
  match e with
  | const_ref x | mutable_ref x => c ← deref σ x; Ok (size c)
  | ExprTemplate l _ r =>
      n ← expr_size l σ;
      if (n =? 0)%N then expr_size r σ else Ok n
  end.

(** An operand's [operator[]] yields a reference into a container
    ([false]) or, for a node, a temporary ([true]). *)
Definition yields_temporary (e : Expr) : bool :=
  match e with
  | ExprTemplate _ _ _ => true
  | _ => false
  end.

(** Overload resolution of [BinaryOp::apply(left[index], right[index])]. *)
Definition overload_of (l r : Expr) : overload :=
  match yields_temporary l, yields_temporary r with
  | false, false => const_const
  | true, false => rvalue_const
  | false, true => const_rvalue
  | true, true => rvalue_rvalue
  end.

(** [operator[](std::size_t index)] of an operand: a container bound by
    const reference is read by its const subscript, one bound by a mutable
    reference by its mutable subscript, which may grow it. *)
Fixpoint expr_index (e : Expr) (index : N) (σ : store) : result (T * store) :=
  match e with
  | const_ref x =>
      c ← deref σ x;
      v ← op_index_const c index;
      Ok (v, σ)
  | mutable_ref x =>
      c ← deref σ x;
      c' ← op_index c index;
      v ← vector_index (_sequence c') index;
      Ok (v, <[x := c']> σ)
  | ExprTemplate l op r =>
      '(a, σ1) ← expr_index l index σ;
      '(b, σ2) ← expr_index r index σ1;
      v ← apply_op op (overload_of l r) a b;
      Ok (v, σ2)
  end.

(** [SeqContainer::operator op(RightExpr&& re) const]. *)
Definition container_op (op : BinaryOp) (this : loc) (re : Expr) : Expr :=
  ExprTemplate (const_ref this) op re.

(** [ExprTemplate::operator op(RE&& re) const]. *)
Definition template_op (op : BinaryOp) (e : Expr) (re : Expr) : Expr :=
  ExprTemplate e op re.

(** [SeqContainer(ExprTemplate<LE, Op, RE>&& expr)]. *)
Definition construct_from (expr : Expr) (σ : store) : result (SeqContainer T * store) :=
  n ← expr_size expr σ;
  let s0 := replicate (N.to_nat n) value_init in
  let limit := N.of_nat (length s0) in
  for_range limit
    (fun i '(c, σ) =>
       '(v, σ') ← expr_index expr i σ;
       s ← vector_assign (_sequence c) i v;
       Ok (mk_seq s, σ'))
    (mk_seq s0, σ).

(** One step of a compound assignment from an operand:
    [_sequence[i] op= re[i]] on the container at [this]. *)
Definition compound_expr_slot (op : T -> T -> result T) (this : loc) (re : Expr)
    (i : N) (σ : store) : result store :=
  '(y, σ1) ← expr_index re i σ;
  c ← deref σ1 this;
  x ← vector_index (_sequence c) i;
  v ← op x y;
  s ← vector_assign (_sequence c) i v;
  Ok (<[this := mk_seq s]> σ1).

(** [template <typename RightExpr> operator op=(RightExpr&& re)]. *)
Definition compound_assign_expr (op : T -> T -> result T) (this : loc) (re : Expr)
    (σ : store) : result store :=
  c ← deref σ this;
  n ← expr_size re σ;
  let limit := max_val (size c) n in
  let σ1 := if (size c <? limit)%N
            then <[this := resize (Int.sz_add limit 1) c]> σ else σ in
  for_range limit (compound_expr_slot op this re) σ1.

Definition op_add_assign_expr := compound_assign_expr plus.         (* operator+= *)
Definition op_sub_assign_expr := compound_assign_expr minus.        (* operator-= *)
Definition op_mul_assign_expr := compound_assign_expr times.        (* operator*= *)
Definition op_div_assign_expr := compound_assign_expr divide.       (* operator/= *)
Definition op_mod_assign_expr := compound_assign_expr modulo.       (* operator%= *)
Definition op_and_assign_expr := compound_assign_expr bit_and.      (* operator&= *)
Definition op_or_assign_expr := compound_assign_expr bit_or.        (* operator|= *)
Definition op_xor_assign_expr := compound_assign_expr bit_xor.      (* operator^= *)
Definition op_shl_assign_expr := compound_assign_expr shift_left.   (* operator<<= *)
Definition op_shr_assign_expr := compound_assign_expr shift_right.  (* operator>>= *)

End Expression.

Arguments store T : clear implicits.
Arguments Expr : clear implicits.

(** ** The rest of the container *)

Section ContainerMore.
Context {T : Type} `{Element T}.

(** [SeqContainer()]. *)
Definition SeqContainer_default : SeqContainer T := mk_seq [].

(** [SeqContainer(value_type value)]: [_sequence(1, value)]. *)
Definition SeqContainer_value (value : T) : SeqContainer T :=
  mk_seq (replicate 1 value).

(** [operator bool() const], from index [i] on: the first truthy element
    returns [true]. *)
Fixpoint bool_loop (n : nat) (i : N) (c : SeqContainer T) : result bool :=
  match n with
  | O => Ok false
  | S n' =>
      v ← op_index_const c i;
      if to_bool v then Ok true else bool_loop n' (i + 1)%N c
  end.

Definition op_bool (c : SeqContainer T) : result bool :=
  let limit := size c in
  bool_loop (N.to_nat limit) 0%N c.

(** [pop_back()]. *)
Definition pop_back (c : SeqContainer T) : SeqContainer T :=
  if (0 <? size c)%N then mk_seq (take (length (_sequence c) - 1) (_sequence c))
  else c.

(** [push_back(value_type value)]. *)
Definition push_back (value : T) (c : SeqContainer T) : SeqContainer T :=
  mk_seq (_sequence c ++ [value]).

(** [v.insert(v.begin() + at, first, last)] of [std::vector]: defined for a
    position inside the vector or at its end. *)
Definition vector_insert (v : list T) (at_ : N) (range : list T) : result (list T) :=
  if (at_ <=? N.of_nat (length v))%N
  then Ok (take (N.to_nat at_) v ++ range ++ drop (N.to_nat at_) v)
  else Err out_of_range.

(** [insert(std::size_t at, std::ranges::sized_range auto&& range)], for a
    [range] that is another container.  Overload resolution selects it for
    a container that is not const, an lvalue or a temporary; see
    [insert_call] for the other arguments. *)
Definition insert (at_ : N) (range : SeqContainer T) (c : SeqContainer T)
    : result (SeqContainer T) :=
  let c1 := if (size c <? at_)%N then resize at_ c else c in
  s ← vector_insert (_sequence c1) at_ (_sequence range);
  Ok (mk_seq s).

End ContainerMore.

(** *** The two overloads of [insert] *)

Section InsertOverloads.
Context {T : Type} `{Element T}.

(** The conversion of a [bool] to [value_type]. *)
Variable of_bool : bool -> T.

(** [SeqContainer(std::initializer_list<value_type> list)]; the line it
    writes to [std::cout] is left out. *)
Definition SeqContainer_list (list : list T) : SeqContainer T := mk_seq list.

(** What [insert(at, range)] is called with. *)
Inductive insert_argument : Type :=
  | element_argument (value : T)                 (* a [value_type] *)
  | const_container (range : SeqContainer T)     (* a [const SeqContainer] *)
  | mutable_container (range : SeqContainer T).  (* a [SeqContainer] that is not const *)

(** [insert(std::size_t at, const auto& range)]:
    [insert(at, SeqContainer(std::initializer_list<value_type>{range}))],
    the list holding [range] converted to [value_type]; the temporary
    selects the overload on [sized_range auto&&]. *)
Definition insert_value (at_ : N) (value : T) (c : SeqContainer T)
    : result (SeqContainer T) :=
  insert at_ (SeqContainer_list [value]) c.

(** The call [insert(at, range)].  An element and a const container select
    [insert(std::size_t, const auto&)], where a container is converted to
    [value_type] through its [operator bool]; a container that is not const
    selects [insert(std::size_t, sized_range auto&&)]. *)
Definition insert_call (at_ : N) (arg : insert_argument) (c : SeqContainer T)
    : result (SeqContainer T) :=
  match arg with
  | element_argument value => insert_value at_ value c
  | const_container range =>
      b ← op_bool range;
      insert_value at_ (of_bool b) c
  | mutable_container range => insert at_ range c
  end.

End InsertOverloads.

Arguments insert_argument T : clear implicits.

(** ** The rest of the expression machinery *)

Section ExpressionMore.
Context {T : Type} `{Element T}.

(** One step of the plain assignment from an operand:
    [_sequence[i] = re[i]] on the container at [this]. *)
Definition assign_expr_slot (this : loc) (re : Expr)
    (i : N) (σ : store T) : result (store T) :=
  '(y, σ1) ← expr_index re i σ;
  c ← deref σ1 this;
  s ← vector_assign (_sequence c) i y;
  Ok (<[this := mk_seq s]> σ1).

(** [template <typename RightExpr> operator=(RightExpr&& re)]. *)
Definition op_assign_expr (this : loc) (re : Expr) (σ : store T)
    : result (store T) :=
  c ← deref σ this;
  n ← expr_size re σ;
  let limit := max_val (size c) n in
  let σ1 := if (size c <? limit)%N
            then <[this := resize (Int.sz_add limit 1) c]> σ else σ in
  for_range limit (assign_expr_slot this re) σ1.

(** *** What a node computes, without the store passing

    The containers an operand names through a mutable reference. *)
Fixpoint mutable_refs (e : Expr) : gset loc :=
  match e with
  | const_ref _ => ∅
  | mutable_ref x => {[x]}
  | ExprTemplate l _ r => mutable_refs l ∪ mutable_refs r
  end.

(** The store in which the containers at [M] shorter than [bound] have been
    resized to [bound]. *)
Definition grow (bound : N) (M : gset loc) (σ : store T) : store T :=
  map_imap
    (fun x c =>
       Some (if decide (x ∈ M)
             then (if (size c <? bound)%N then resize bound c else c)
             else c))
    σ.

(** The value of an operand at an index: every container read with zero
    fill, none changed. *)
Fixpoint expr_value (e : Expr) (index : N) (σ : store T) : result T :=
  match e with
  | const_ref x | mutable_ref x => c ← deref σ x; op_index_const c index
  | ExprTemplate l op r =>
      a ← expr_value l index σ;
      b ← expr_value r index σ;
      apply_op op (overload_of l r) a b
  end.

(** One step of an elementwise pass over a storage [s] that combines slot
    [i] with the value of an operand at [i] in a fixed store. *)
Definition fused_slot (op : T -> T -> result T) (e : Expr) (σ : store T)
    (i : N) (s : list T) : result (list T) :=
  y ← expr_value e i σ;
  x ← vector_index s i;
  v ← op x y;
  vector_assign s i v.

(** The store in the middle of a pass over the container at [this]: its
    storage is [s], the mutable operands have been grown to [i]. *)
Definition during (this : loc) (M : gset loc) (σ : store T)
    (i : N) (s : list T) : store T :=
  <[this := mk_seq s]> (grow i M σ).

End ExpressionMore.

(** ** The stream operator *)

Section Stream.
Context {T : Type} `{Element T}.

(** The characters that [os << value] writes for one element. *)
Variable show : T -> list ascii.

(** [os << a[i] << ((i + VALUE{ 1 } != a.size()) ? ',' : ')')], the sum
    being a [std::size_t] as it is for an integer [VALUE] no wider. *)
Definition stream_slot (a : SeqContainer T) (i : N) (os : list ascii)
    : result (list ascii) :=
  v ← op_index_const a i;
  Ok (os ++ show v
         ++ [if negb (Int.sz_add i 1 =? size a)%N then ","%char else ")"%char]).

(** [operator<<(std::ostream& os, SeqContainer const& a)]: what [os] holds
    afterwards. *)
Definition op_stream (os : list ascii) (a : SeqContainer T) : result (list ascii) :=
  if (0 <? size a)%N
  then for_range (size a) (stream_slot a) (os ++ ["("%char])
  else Ok os.

End Stream.

(** * Properties *)

(** ** Machine integers *)

Module IntFacts.
Import Int.

Lemma to_size_t_small (z : Z) :
  (0 <= z < 2 ^ 64)%Z -> to_size_t z = Z.to_N z.
Proof. intros Hz. unfold to_size_t. by rewrite Z.mod_small. Qed.

Lemma std_abs_small (z : Z) :
  (INT_MIN < z <= INT_MAX)%Z -> std_abs z = Z.abs z.
Proof.
  unfold INT_MIN, INT_MAX, std_abs, wrap. intros Hz.
  rewrite Z.mod_small; lia.
Qed.

Lemma sz_add_small (a b : N) :
  (a + b <= SIZE_MAX)%N -> sz_add a b = (a + b)%N.
Proof.
  unfold SIZE_MAX, sz_add. intros Hle. apply N.mod_small. lia.
Qed.

Lemma wrap64_small (z : Z) :
  (INTMAX_MIN <= z <= INTMAX_MAX)%Z -> Intmax.wrap64 z = z.
Proof.
  unfold INTMAX_MIN, INTMAX_MAX, Intmax.wrap64, wrap. intros Hz.
  rewrite Z.mod_small; lia.
Qed.

End IntFacts.

(** ** Vectors and loops *)

Lemma result_bind_Ok {A B : Type} (a : A) (f : A -> result B) :
  Ok a ≫= f = f a.
Proof. reflexivity. Qed.

Section VectorFacts.
Context {T : Type}.
Implicit Types (v s : list T) (x : T) (i : N).

Lemma vector_index_Some v i x :
  v !! N.to_nat i = Some x -> vector_index v i = Ok x.
Proof. unfold vector_index. by intros ->. Qed.

Lemma vector_index_ge v i :
  length v <= N.to_nat i -> vector_index v i = Err out_of_range.
Proof.
  intros Hge. unfold vector_index. by rewrite lookup_ge_None_2.
Qed.

Lemma vector_assign_Some v i x y :
  v !! N.to_nat i = Some y ->
  vector_assign v i x = Ok (<[N.to_nat i := x]> v).
Proof. unfold vector_assign. by intros ->. Qed.

Lemma vector_assign_ge v i x :
  length v <= N.to_nat i -> vector_assign v i x = Err out_of_range.
Proof.
  intros Hge. unfold vector_assign. by rewrite lookup_ge_None_2.
Qed.

Lemma length_vector_resize (n : N) x v :
  length (vector_resize n x v) = N.to_nat n.
Proof.
  unfold vector_resize. rewrite length_app, length_take, length_replicate. lia.
Qed.

Lemma vector_resize_grow (n : N) x v :
  length v <= N.to_nat n ->
  vector_resize n x v = v ++ replicate (N.to_nat n - length v) x.
Proof. intros Hle. unfold vector_resize. by rewrite take_ge. Qed.

Lemma vector_resize_shrink (n : N) x v :
  N.to_nat n <= length v -> vector_resize n x v = take (N.to_nat n) v.
Proof.
  intros Hle. unfold vector_resize.
  replace (N.to_nat n - length v) with 0 by lia.
  simpl. by rewrite app_nil_r.
Qed.

Lemma length_std_rotate v (n : N) : length (std_rotate v n) = length v.
Proof.
  unfold std_rotate. rewrite length_app, length_take, length_drop. lia.
Qed.

Lemma length_pass h first n s : length (pass h first n s) = length s.
Proof.
  unfold pass.
  rewrite !length_app, length_fmap, !length_take, !length_drop. lia.
Qed.

Lemma pass_all h s : pass h 0 (length s) s = h <$> s.
Proof.
  unfold pass. simpl. rewrite drop_0, take_ge, drop_all by lia.
  by rewrite app_nil_r.
Qed.

Lemma pass_none h first s : pass h first 0 s = s.
Proof.
  unfold pass. rewrite take_0, Nat.add_0_r. simpl. apply take_drop.
Qed.

Lemma for_loop_pointwise h body (Hbody : pointwise h body) (n : nat) :
  forall i s, N.to_nat i + n <= length s ->
    for_loop n i body s = Ok (pass h (N.to_nat i) n s).
Proof.
  induction n as [|n IH]; intros i s Hlen.
  - simpl. by rewrite pass_none.
  - destruct (lookup_lt_is_Some_2 s (N.to_nat i)) as [x Hx]; [lia|].
    simpl. rewrite (Hbody _ _ _ Hx). simpl.
    rewrite IH by (rewrite length_insert; lia).
    f_equal. unfold pass.
    replace (N.to_nat (i + 1)) with (S (N.to_nat i)) by lia.
    rewrite (take_S_r _ _ (h x)) by (apply list_lookup_insert_eq; lia).
    rewrite take_insert_ge by lia.
    rewrite !drop_insert_lt by lia.
    rewrite (drop_S s x (N.to_nat i)) by done.
    replace (S (N.to_nat i) + n) with (N.to_nat i + S n) by lia.
    simpl. by rewrite <- app_assoc.
Qed.

Lemma while_down_pointwise h body (Hbody : pointwise h body) (n : nat) :
  forall limit s, N.to_nat limit + n <= length s ->
    while_down n limit body s = Ok (pass h (N.to_nat limit) n s).
Proof.
  induction n as [|n IH]; intros limit s Hlen.
  - simpl. by rewrite pass_none.
  - destruct (lookup_lt_is_Some_2 s (N.to_nat limit + n)) as [x Hx]; [lia|].
    simpl.
    replace (N.to_nat (limit + N.of_nat n)) with (N.to_nat limit + n) in * by lia.
    rewrite (Hbody _ s x)
      by (by replace (N.to_nat (limit + N.of_nat n)) with (N.to_nat limit + n) by lia).
    replace (N.to_nat (limit + N.of_nat n)) with (N.to_nat limit + n) by lia.
    simpl. rewrite IH by (rewrite length_insert; lia).
    f_equal. unfold pass.
    rewrite take_insert_ge by lia.
    rewrite drop_insert_ge by lia.
    replace (N.to_nat limit + n - N.to_nat limit) with n by lia.
    rewrite take_insert_ge by lia.
    rewrite (drop_insert_ge _ (N.to_nat limit + n)) by lia.
    replace (N.to_nat limit + n - (N.to_nat limit + n)) with 0 by lia.
    rewrite (drop_S s x (N.to_nat limit + n)) by done. simpl.
    rewrite (take_S_r (drop (N.to_nat limit) s) n x)
      by (by rewrite lookup_drop).
    rewrite fmap_app. simpl.
    replace (N.to_nat limit + S n) with (S (N.to_nat limit + n)) by lia.
    by rewrite <- app_assoc.
Qed.

End VectorFacts.

(** ** The container: size, resize, indexed read and write *)

Section ContainerFacts.
Context {T : Type} `{Element T}.
Implicit Types (c : SeqContainer T) (i j : N) (x v : T).

Lemma size_mk_seq (s : list T) : size (mk_seq s) = N.of_nat (length s).
Proof. reflexivity. Qed.

Lemma size_resize_fill (sz : N) v c : size (resize_fill sz v c) = sz.
Proof.
  unfold resize_fill.
  destruct (N.leb_spec (size c) sz) as [Hle|Hlt].
  - rewrite size_mk_seq, length_vector_resize. lia.
  - destruct (N.ltb_spec 0 sz) as [Hpos|Hz].
    + rewrite size_mk_seq, length_vector_resize. lia.
    + rewrite size_mk_seq. simpl. lia.
Qed.

Lemma size_resize (sz : N) c : size (resize sz c) = sz.
Proof. apply size_resize_fill. Qed.

Lemma resize_grow (sz : N) c :
  (size c <= sz)%N ->
  resize sz c =
  mk_seq (_sequence c ++ replicate (N.to_nat sz - length (_sequence c)) value_init).
Proof.
  intros Hle. unfold resize, resize_fill.
  destruct (N.leb_spec (size c) sz) as [_|Hlt]; [|lia].
  rewrite vector_resize_grow; [done|]. unfold size in Hle. lia.
Qed.

(** The const subscript is total: the element, or the default value. *)
Lemma op_index_const_spec c i :
  op_index_const c i = Ok (default def_value (_sequence c !! N.to_nat i)).
Proof.
  unfold op_index_const, size.
  destruct (N.ltb_spec i (N.of_nat (length (_sequence c)))) as [Hlt|Hge].
  - destruct (lookup_lt_is_Some_2 (_sequence c) (N.to_nat i)) as [x Hx]; [lia|].
    rewrite Hx. simpl. by apply vector_index_Some.
  - rewrite lookup_ge_None_2 by lia. done.
Qed.

Lemma op_index_const_lt c i :
  (i < size c)%N ->
  exists x, _sequence c !! N.to_nat i = Some x /\ op_index_const c i = Ok x.
Proof.
  intros Hlt. unfold size in Hlt.
  destruct (lookup_lt_is_Some_2 (_sequence c) (N.to_nat i)) as [x Hx]; [lia|].
  exists x. split; [done|]. by rewrite op_index_const_spec, Hx.
Qed.

Lemma op_index_const_ge c i :
  (size c <= i)%N -> op_index_const c i = Ok def_value.
Proof.
  intros Hge. unfold size in Hge.
  rewrite op_index_const_spec, lookup_ge_None_2 by lia. done.
Qed.

(** The mutable subscript inside the storage leaves the container as it is. *)
Lemma op_index_lt c i : (i < size c)%N -> op_index c i = Ok c.
Proof.
  intros Hlt. unfold op_index.
  destruct (N.leb_spec (size c) i) as [Hle|_]; [lia|].
  destruct (op_index_const_lt c i Hlt) as (x & Hx & _).
  by rewrite (vector_index_Some _ _ x).
Qed.

(** Outside the storage it grows the container to [index + 1] slots. *)
Lemma op_index_ge c i :
  (size c <= i)%N -> (i < Int.SIZE_MAX)%N ->
  op_index c i = Ok (resize (i + 1) c).
Proof.
  intros Hge Hmax. unfold op_index.
  destruct (N.leb_spec (size c) i) as [_|Hlt]; [|lia].
  rewrite IntFacts.sz_add_small by lia.
  pose proof (size_resize (i + 1) c) as Hsz. unfold size in Hsz.
  destruct (lookup_lt_is_Some_2 (_sequence (resize (i + 1) c)) (N.to_nat i))
    as [x Hx]; [lia|].
  by rewrite (vector_index_Some _ _ x).
Qed.

(** The last index has no successor in [std::size_t]: [index + 1] is 0,
    no storage of [index + 1] slots comes to exist, and the slot is outside
    the storage. *)
Lemma op_index_last c :
  (size c <= Int.SIZE_MAX)%N -> op_index c Int.SIZE_MAX = Err out_of_range.
Proof.
  intros Hle. unfold op_index.
  destruct (N.leb_spec (size c) Int.SIZE_MAX) as [_|Hlt]; [|lia].
  replace (Int.sz_add Int.SIZE_MAX 1) with 0%N by (by vm_compute).
  assert (resize 0 c = mk_seq []) as ->; [|done].
  unfold resize, resize_fill.
  destruct (N.leb_spec (size c) 0) as [Hz|Hpos]; [|done].
  unfold vector_resize. by simpl.
Qed.

Lemma write_ge c i v :
  (size c <= i)%N -> (i < Int.SIZE_MAX)%N ->
  write c i v =
  Ok (mk_seq (_sequence c ++
              replicate (N.to_nat i - length (_sequence c)) value_init ++ [v])).
Proof.
  intros Hge Hmax. unfold write.
  rewrite op_index_ge by done. simpl.
  rewrite resize_grow by lia. simpl.
  unfold size in Hge.
  replace (N.to_nat (i + 1) - length (_sequence c))
    with (S (N.to_nat i - length (_sequence c))) by lia.
  rewrite replicate_S_end, app_assoc.
  set (gap := replicate _ _).
  assert (length (_sequence c ++ gap) = N.to_nat i) as Hlen.
  { rewrite length_app. unfold gap. rewrite length_replicate. lia. }
  rewrite (vector_assign_Some _ _ _ value_init).
  - simpl. do 2 f_equal. rewrite <- Hlen.
    replace (length (_sequence c ++ gap)) with (length (_sequence c ++ gap) + 0) by lia.
    rewrite insert_app_r. simpl. by rewrite <- app_assoc.
  - rewrite lookup_app_r by lia. by rewrite Hlen, Nat.sub_diag.
Qed.

(** ** Comparison *)

Lemma op_spaceship_greater (a b : SeqContainer T) :
  op_spaceship a b = greater <-> (size b < size a)%N.
Proof.
  unfold op_spaceship.
  destruct (N.ltb_spec (size b) (size a)); [done|].
  destruct (N.ltb_spec (size a) (size b)); split; (done || lia).
Qed.

Lemma op_spaceship_less (a b : SeqContainer T) :
  op_spaceship a b = less <-> (size a < size b)%N.
Proof.
  unfold op_spaceship.
  destruct (N.ltb_spec (size b) (size a)); [split; (done || lia)|].
  destruct (N.ltb_spec (size a) (size b)); split; (done || lia).
Qed.

Lemma op_spaceship_equivalent (a b : SeqContainer T) :
  op_spaceship a b = equivalent <-> size a = size b.
Proof.
  unfold op_spaceship.
  destruct (N.ltb_spec (size b) (size a)); [split; (done || lia)|].
  destruct (N.ltb_spec (size a) (size b)); split; (done || lia).
Qed.

Lemma op_eq_size (a b : SeqContainer T) :
  op_eq a b = true <-> size a = size b.
Proof.
  rewrite <- op_spaceship_equivalent. unfold op_eq.
  destruct (op_spaceship a b); split; done.
Qed.

End ContainerFacts.

(** ** Rotations *)

Section RotationFacts.
Context {T : Type} `{Element T}.
Implicit Types (c : SeqContainer T) (s : list T).

Lemma pointwise_store_slot (v : T) : pointwise (fun _ => v) (store_slot v).
Proof.
  intros i s x Hx. unfold store_slot. by rewrite (vector_assign_Some _ _ _ x).
Qed.

Lemma pointwise_update_slot (g : T -> T) :
  pointwise g (update_slot (fun _ x => Ok (g x))).
Proof.
  intros i s x Hx. unfold update_slot.
  rewrite (vector_index_Some _ _ x) by done. simpl.
  by rewrite (vector_assign_Some _ _ _ x).
Qed.

Lemma pass_const (v : T) (first n : nat) s :
  first + n <= length s ->
  pass (fun _ => v) first n s = take first s ++ replicate n v ++ drop (first + n) s.
Proof.
  intros Hlen. unfold pass.
  rewrite (const_fmap _ _ v) by done.
  rewrite length_take, length_drop. do 3 f_equal. lia.
Qed.

Lemma size_rotate_left (shift : N) c : size (rotate_left shift c) = size c.
Proof.
  unfold rotate_left. destruct (0 <? size c)%N; [|done].
  by rewrite size_mk_seq, length_std_rotate.
Qed.

Lemma size_rotate_right (shift : N) c : size (rotate_right shift c) = size c.
Proof.
  unfold rotate_right. destruct (0 <? size c)%N; [|done].
  by rewrite size_mk_seq, length_std_rotate.
Qed.

(** The number of places a rotation by [shift] moves the elements of [c]. *)
Lemma places_lt (shift : N) c :
  (0 < size c)%N -> N.to_nat (shift mod size c) < length (_sequence c).
Proof.
  intros Hpos. pose proof (N.mod_lt shift (size c)) as Hlt.
  unfold size in *. lia.
Qed.

Lemma rotate_left_nonempty (shift : N) c :
  (0 < size c)%N ->
  let n := length (_sequence c) in
  let d := N.to_nat (shift mod size c) in
  rotate_left shift c = mk_seq (drop (n - d) (_sequence c) ++ take (n - d) (_sequence c)).
Proof.
  intros Hpos n d. unfold rotate_left, std_rotate.
  destruct (N.ltb_spec 0 (size c)) as [_|Hz]; [|lia].
  pose proof (places_lt shift c Hpos) as Hd.
  replace (N.to_nat (size c - shift mod size c)) with (n - d); [done|].
  unfold n, d, size in *. lia.
Qed.

Lemma rotate_right_nonempty (shift : N) c :
  (0 < size c)%N ->
  let d := N.to_nat (shift mod size c) in
  rotate_right shift c = mk_seq (drop d (_sequence c) ++ take d (_sequence c)).
Proof.
  intros Hpos d. unfold rotate_right, std_rotate.
  by destruct (N.ltb_spec 0 (size c)) as [_|Hz]; [|lia].
Qed.

Lemma rotate_empty_l (shift : N) c : size c = 0%N -> rotate_left shift c = c.
Proof. intros Hz. unfold rotate_left. by rewrite Hz. Qed.

Lemma rotate_empty_r (shift : N) c : size c = 0%N -> rotate_right shift c = c.
Proof. intros Hz. unfold rotate_right. by rewrite Hz. Qed.

Lemma rotate_right_zero c : rotate_right 0 c = c.
Proof.
  destruct (N.eq_0_gt_0_cases (size c)) as [Hz|Hpos].
  { by rewrite rotate_empty_r. }
  rewrite rotate_right_nonempty by done.
  rewrite N.Div0.mod_0_l. destruct c as [s]. simpl.
  by rewrite drop_0, app_nil_r.
Qed.

Lemma rotate_right_left (shift : N) c :
  rotate_right shift (rotate_left shift c) = c.
Proof.
  destruct (N.eq_0_gt_0_cases (size c)) as [Hz|Hpos].
  { by rewrite rotate_empty_l, rotate_empty_r. }
  pose proof (places_lt shift c Hpos) as Hd.
  rewrite rotate_right_nonempty by (by rewrite size_rotate_left).
  rewrite size_rotate_left, rotate_left_nonempty by done.
  destruct c as [s]. simpl in *.
  set (d := N.to_nat _) in *.
  rewrite drop_app_length', take_app_length', take_drop; [done| |];
    rewrite length_drop; lia.
Qed.

Lemma rotate_left_right (shift : N) c :
  rotate_left shift (rotate_right shift c) = c.
Proof.
  destruct (N.eq_0_gt_0_cases (size c)) as [Hz|Hpos].
  { by rewrite rotate_empty_r, rotate_empty_l. }
  pose proof (places_lt shift c Hpos) as Hd.
  rewrite rotate_left_nonempty by (by rewrite size_rotate_right).
  rewrite size_rotate_right, rotate_right_nonempty by done.
  destruct c as [s]. simpl in *.
  set (d := N.to_nat _) in *.
  rewrite length_app, length_take, length_drop.
  replace (length s - d + d `min` length s - d) with (length s - d) by lia.
  rewrite drop_app_length', take_app_length', take_drop; [done| |];
    rewrite length_drop; lia.
Qed.

Lemma cshift_pos (k : Z) c :
  (0 < k)%Z -> cshift k c = rotate_left (Int.to_size_t k) c.
Proof. intros Hk. unfold cshift. by destruct (Z.ltb_spec 0 k); [|lia]. Qed.

Lemma cshift_nonpos (k : Z) c :
  (k <= 0)%Z -> cshift k c = rotate_right (Int.to_size_t (Int.std_abs k)) c.
Proof. intros Hk. unfold cshift. by destruct (Z.ltb_spec 0 k); [lia|]. Qed.

Lemma cshift_cshift_opp (k : Z) c :
  (Int.INT_MIN < k <= Int.INT_MAX)%Z -> cshift (- k) (cshift k c) = c.
Proof.
  intros Hk. assert (Int.INT_MIN < - k <= Int.INT_MAX)%Z as Hk'.
  { unfold Int.INT_MIN, Int.INT_MAX in *. lia. }
  destruct (Z.lt_trichotomy 0 k) as [Hpos|[<-|Hneg]].
  - rewrite (cshift_pos k), (cshift_nonpos (- k)) by lia.
    rewrite IntFacts.std_abs_small by done.
    replace (Z.abs (- k)) with k by lia. apply rotate_right_left.
  - simpl. rewrite !cshift_nonpos by lia.
    replace (Int.to_size_t (Int.std_abs 0)) with 0%N by (by vm_compute).
    by rewrite !rotate_right_zero.
  - rewrite (cshift_nonpos k), (cshift_pos (- k)) by lia.
    rewrite IntFacts.std_abs_small by done.
    replace (Z.abs k) with (- k)%Z by lia. apply rotate_left_right.
Qed.

End RotationFacts.

Section DropFacts.
Context {T : Type} `{Element T}.
Implicit Types (c : SeqContainer T) (s : list T).

Lemma rotate_left_and_drop_empty (shift : N) c :
  size c = 0%N -> rotate_left_and_drop shift c = Ok c.
Proof.
  intros Hz. unfold rotate_left_and_drop.
  by rewrite size_rotate_left, Hz, rotate_empty_l.
Qed.

Lemma rotate_right_and_drop_empty (shift : N) c :
  size c = 0%N -> rotate_right_and_drop shift c = Ok c.
Proof.
  intros Hz. unfold rotate_right_and_drop.
  by rewrite size_rotate_right, Hz, rotate_empty_r.
Qed.

(** Rotate-left-and-drop: the [d] wrapped elements are zeroed at the front. *)
Lemma rotate_left_and_drop_nonempty (shift : N) c :
  (0 < size c)%N ->
  let n := length (_sequence c) in
  let d := N.to_nat (shift mod size c) in
  rotate_left_and_drop shift c =
  Ok (mk_seq (replicate d value_init ++ take (n - d) (_sequence c))).
Proof.
  intros Hpos n d. unfold rotate_left_and_drop.
  rewrite size_rotate_left.
  destruct (N.ltb_spec 0 (size c)) as [_|Hz]; [|lia].
  pose proof (places_lt shift c Hpos) as Hd. fold d n in Hd.
  rewrite rotate_left_nonempty by done. fold d n. simpl.
  unfold for_range.
  rewrite (for_loop_pointwise _ _ (pointwise_store_slot value_init)); fold d.
  - simpl. rewrite pass_const.
    + simpl. do 2 f_equal.
      rewrite drop_app_length'; [done|]. rewrite length_drop. lia.
    + rewrite length_app, length_drop, length_take. lia.
  - rewrite length_app, length_drop, length_take. lia.
Qed.

(** Rotate-right-and-drop: the [d] wrapped elements are zeroed at the back. *)
Lemma rotate_right_and_drop_nonempty (shift : N) c :
  (0 < size c)%N ->
  let d := N.to_nat (shift mod size c) in
  rotate_right_and_drop shift c =
  Ok (mk_seq (drop d (_sequence c) ++ replicate d value_init)).
Proof.
  intros Hpos d. unfold rotate_right_and_drop.
  rewrite size_rotate_right.
  destruct (N.ltb_spec 0 (size c)) as [_|Hz]; [|lia].
  pose proof (places_lt shift c Hpos) as Hd. fold d in Hd.
  rewrite rotate_right_nonempty by done. fold d. simpl.
  set (n := length (_sequence c)) in *.
  assert (N.to_nat (size c - shift mod size c) = n - d) as Hlimit.
  { unfold n, d, size in *. lia. }
  replace (N.to_nat (size c - (size c - shift mod size c))) with d
    by (unfold n, d, size in *; lia).
  rewrite (while_down_pointwise _ _ (pointwise_store_slot value_init));
    rewrite Hlimit.
  - simpl. rewrite pass_const.
    + rewrite take_app_length' by (rewrite length_drop; lia).
      rewrite (drop_ge _ (n - d + d))
        by (rewrite length_app, length_drop, length_take; lia).
      by rewrite app_nil_r.
    + rewrite length_app, length_drop, length_take. lia.
  - rewrite length_app, length_drop, length_take. lia.
Qed.

Lemma rotate_left_and_drop_size (shift : N) c :
  exists c', rotate_left_and_drop shift c = Ok c' /\ size c' = size c.
Proof.
  destruct (N.eq_0_gt_0_cases (size c)) as [Hz|Hpos].
  { exists c. by rewrite rotate_left_and_drop_empty. }
  pose proof (places_lt shift c Hpos) as Hd.
  eexists. split; [by apply rotate_left_and_drop_nonempty|].
  rewrite size_mk_seq, length_app, length_replicate, length_take.
  set (d := N.to_nat _) in *. clearbody d. unfold size. lia.
Qed.

Lemma rotate_right_and_drop_size (shift : N) c :
  exists c', rotate_right_and_drop shift c = Ok c' /\ size c' = size c.
Proof.
  destruct (N.eq_0_gt_0_cases (size c)) as [Hz|Hpos].
  { exists c. by rewrite rotate_right_and_drop_empty. }
  pose proof (places_lt shift c Hpos) as Hd.
  eexists. split; [by apply rotate_right_and_drop_nonempty|].
  rewrite size_mk_seq, length_app, length_replicate, length_drop.
  set (d := N.to_nat _) in *. clearbody d. unfold size. lia.
Qed.

Lemma shift_pos (k : Z) c :
  (0 < k)%Z -> shift k c = rotate_left_and_drop (Int.to_size_t k) c.
Proof. intros Hk. unfold shift. by destruct (Z.ltb_spec 0 k); [|lia]. Qed.

Lemma shift_nonpos (k : Z) c :
  (k <= 0)%Z ->
  shift k c = rotate_right_and_drop (Int.to_size_t (Int.std_abs k)) c.
Proof. intros Hk. unfold shift. by destruct (Z.ltb_spec 0 k); [lia|]. Qed.

(** [shift(k)] then [shift(-k)], for [k > 0]: the last [d] elements are lost. *)
Lemma shift_shift_opp_pos (k : Z) c :
  (0 < size c)%N -> (0 < k <= Int.INT_MAX)%Z ->
  let n := length (_sequence c) in
  let d := N.to_nat (Int.to_size_t k mod size c) in
  shift k c ≫= shift (- k) =
  Ok (mk_seq (take (n - d) (_sequence c) ++ replicate d value_init)).
Proof.
  intros Hpos Hk n d.
  pose proof (places_lt (Int.to_size_t k) c Hpos) as Hd. fold d n in Hd.
  rewrite shift_pos, rotate_left_and_drop_nonempty by (done || lia).
  fold n d. simpl.
  rewrite shift_nonpos by lia.
  rewrite IntFacts.std_abs_small by (unfold Int.INT_MIN, Int.INT_MAX in *; lia).
  replace (Z.abs (- k)) with k by lia.
  set (c1 := mk_seq _).
  assert (size c1 = size c) as Hsz.
  { unfold c1. rewrite size_mk_seq, length_app, length_replicate, length_take.
    clearbody d. unfold n, size. lia. }
  rewrite rotate_right_and_drop_nonempty by (by rewrite Hsz).
  rewrite Hsz. fold d. unfold c1. simpl.
  by rewrite drop_app_length' by (by rewrite length_replicate).
Qed.

(** [shift(k)] then [shift(-k)], for [k < 0]: the first [d] elements are lost. *)
Lemma shift_shift_opp_neg (k : Z) c :
  (0 < size c)%N -> (Int.INT_MIN < k < 0)%Z ->
  let d := N.to_nat (Int.to_size_t (- k) mod size c) in
  shift k c ≫= shift (- k) =
  Ok (mk_seq (replicate d value_init ++ drop d (_sequence c))).
Proof.
  intros Hpos Hk d.
  pose proof (places_lt (Int.to_size_t (- k)) c Hpos) as Hd. fold d in Hd.
  rewrite shift_nonpos by lia.
  rewrite IntFacts.std_abs_small by (unfold Int.INT_MIN, Int.INT_MAX in *; lia).
  replace (Z.abs k) with (- k)%Z by lia.
  rewrite rotate_right_and_drop_nonempty by done. fold d. simpl.
  rewrite shift_pos by lia.
  set (c1 := mk_seq _).
  assert (size c1 = size c) as Hsz.
  { unfold c1. rewrite size_mk_seq, length_app, length_replicate, length_drop.
    clearbody d. unfold size. lia. }
  rewrite rotate_left_and_drop_nonempty by (by rewrite Hsz).
  rewrite Hsz. fold d. unfold c1. simpl.
  rewrite length_app, length_drop, length_replicate.
  replace (length (_sequence c) - d + d - d) with (length (drop d (_sequence c)))
    by (rewrite length_drop; lia).
  by rewrite take_app_length.
Qed.

End DropFacts.

(** ** Elementwise passes *)

Section ElementwiseFacts.
Context {T : Type} `{Element T}.
Implicit Types (c b : SeqContainer T) (s : list T).

Lemma for_range_update_slot (g : T -> T) s :
  for_range (N.of_nat (length s)) (update_slot (fun _ x => Ok (g x))) s
  = Ok (g <$> s).
Proof.
  unfold for_range.
  rewrite (for_loop_pointwise _ _ (pointwise_update_slot g)) by (simpl; lia).
  rewrite Nat2N.id. simpl. by rewrite pass_all.
Qed.

Lemma apply_unary_spec (func : T -> T) c :
  apply_unary func c = Ok (mk_seq (func <$> _sequence c)).
Proof.
  unfold apply_unary, size. by rewrite for_range_update_slot.
Qed.

Lemma op_neg_spec c : op_neg c = Ok (c, mk_seq (negate <$> _sequence c)).
Proof. unfold op_neg, size. by rewrite for_range_update_slot. Qed.

Lemma op_unary_plus_spec c :
  op_unary_plus c = Ok (c, mk_seq (unary_plus <$> _sequence c)).
Proof. unfold op_unary_plus, size. by rewrite for_range_update_slot. Qed.

Lemma op_compl_spec c :
  op_compl c =
  Ok (mk_seq (complement <$> _sequence c), mk_seq (complement <$> _sequence c)).
Proof. unfold op_compl, size. by rewrite for_range_update_slot. Qed.

(** A pass whose steps keep the length keeps the length. *)
Lemma for_loop_length (body : N -> list T -> result (list T)) :
  (forall i s s', body i s = Ok s' -> length s' = length s) ->
  forall n i s s', for_loop n i body s = Ok s' -> length s' = length s.
Proof.
  intros Hbody n. induction n as [|n IH]; intros i s s' Hrun; simpl in Hrun.
  - by inversion Hrun.
  - destruct (body i s) as [s1|e] eqn:Hstep; [|done]. simpl in Hrun.
    rewrite (IH _ _ _ Hrun). by eapply Hbody.
Qed.

Lemma vector_assign_length s (i : N) (x : T) s' :
  vector_assign s i x = Ok s' -> length s' = length s.
Proof.
  unfold vector_assign. destruct (s !! N.to_nat i); [|done].
  intros [= <-]. apply length_insert.
Qed.

Lemma compound_slot_length (op : T -> T -> result T) b (i : N) s s' :
  compound_slot op b i s = Ok s' -> length s' = length s.
Proof.
  unfold compound_slot.
  destruct (op_index_const b i) as [y|]; [simpl|done].
  destruct (vector_index s i) as [x|]; [simpl|done].
  destruct (op x y) as [v|]; [simpl|done].
  apply vector_assign_length.
Qed.

(** The size after a compound assignment from a container: one more than
    the size of [b] when [c] was the shorter one. *)
Lemma compound_assign_size (op : T -> T -> result T) c b c' :
  (size b < Int.SIZE_MAX)%N ->
  compound_assign op c b = Ok c' ->
  size c' = if (size c <? size b)%N then (size b + 1)%N else size c.
Proof.
  intros Hmax. unfold compound_assign, max_val.
  destruct (for_range _ _ _) as [s|] eqn:Hrun; [|done].
  intros [= <-]. unfold for_range in Hrun.
  apply (for_loop_length _ (compound_slot_length op b)) in Hrun.
  rewrite size_mk_seq, Hrun.
  destruct (N.ltb_spec (size c) (size b)) as [Hlt|Hge].
  - rewrite N.max_r by lia.
    destruct (N.ltb_spec (size c) (size b)); [|lia].
    rewrite IntFacts.sz_add_small by lia.
    by rewrite <- size_resize with (c := c).
  - rewrite N.max_l by lia.
    by destruct (N.ltb_spec (size c) (size c)); [lia|].
Qed.

(** The binary [apply] reads [b._sequence[i]] unchecked: a shorter [b]
    is read outside its storage. *)
Lemma apply_loop_out_of_range (func : T -> T -> T) b (n : nat) :
  forall (i : N) s,
    N.to_nat i <= length (_sequence b) ->
    length (_sequence b) < N.to_nat i + n ->
    N.to_nat i + n <= length s ->
    for_loop n i (apply_slot func b) s = Err out_of_range.
Proof.
  induction n as [|n IH]; intros i s Hi Hb Hs; [lia|].
  destruct (lookup_lt_is_Some_2 s (N.to_nat i)) as [x Hx]; [lia|].
  cbn [for_loop].
  destruct (decide (N.to_nat i = length (_sequence b))) as [Heq|Hne].
  - assert (apply_slot func b i s = Err out_of_range) as ->; [|reflexivity].
    unfold apply_slot. rewrite (vector_index_Some s i x Hx). simpl.
    by rewrite vector_index_ge by lia.
  - destruct (lookup_lt_is_Some_2 (_sequence b) (N.to_nat i)) as [y Hy]; [lia|].
    assert (apply_slot func b i s = Ok (<[N.to_nat i := func x y]> s)) as ->.
    { unfold apply_slot. rewrite (vector_index_Some s i x Hx). simpl.
      rewrite (vector_index_Some _ i y Hy). simpl.
      by rewrite (vector_assign_Some s i _ x Hx). }
    simpl. apply IH; rewrite ?length_insert; lia.
Qed.

Lemma apply_binary_shorter (func : T -> T -> T) c b :
  (size b < size c)%N -> apply_binary func c b = Err out_of_range.
Proof.
  intros Hlt. unfold apply_binary, max_val.
  rewrite N.max_l by lia.
  destruct (N.ltb_spec (size c) (size c)) as [|_]; [lia|].
  unfold for_range.
  rewrite apply_loop_out_of_range; [done|simpl; lia|..];
    unfold size in *; lia.
Qed.

End ElementwiseFacts.

(** ** Compound assignment, element by element *)

Section CompoundFacts.
Context {T : Type} `{Element T}.
Implicit Types (c b : SeqContainer T) (s : list T).

Lemma for_loop_slotwise h body (Hbody : slotwise h body) (n : nat) :
  forall (i : N) s s',
    N.to_nat i + n <= length s ->
    for_loop n i body s = Ok s' ->
    length s' = length s /\
    (forall j, j < N.to_nat i \/ N.to_nat i + n <= j -> s' !! j = s !! j) /\
    (forall k x, k < n -> s !! (N.to_nat i + k) = Some x ->
       exists v, h (i + N.of_nat k)%N x = Ok v /\ s' !! (N.to_nat i + k) = Some v).
Proof.
  induction n as [|n IH]; intros i s s' Hlen Hrun.
  - simpl in Hrun. injection Hrun as <-. split; [done|]. split; [done|].
    intros k x Hk. lia.
  - destruct (lookup_lt_is_Some_2 s (N.to_nat i)) as [x0 Hx0]; [lia|].
    simpl in Hrun. rewrite (Hbody i s x0 Hx0) in Hrun.
    destruct (h i x0) as [v0|e] eqn:Hv0; [|done].
    rewrite !result_bind_Ok in Hrun.
    apply IH in Hrun; [|rewrite length_insert; lia].
    replace (N.to_nat (i + 1)) with (S (N.to_nat i)) in Hrun by lia.
    destruct Hrun as (Hlen' & Hout & Hin).
    rewrite length_insert in Hlen'. split; [done|]. split.
    + intros j Hj. rewrite Hout by lia. apply list_lookup_insert_ne. lia.
    + intros [|k] x Hk Hx.
      * rewrite Nat.add_0_r in *. rewrite N.add_0_r.
        exists v0. assert (x = x0) as -> by congruence. split; [done|].
        rewrite Hout by lia. apply list_lookup_insert_eq. lia.
      * destruct (Hin k x) as (v & Hv & Hs'); [lia| |].
        { rewrite list_lookup_insert_ne by lia.
          by replace (S (N.to_nat i) + k) with (N.to_nat i + S k) by lia. }
        exists v.
        replace (i + N.of_nat (S k))%N with (i + 1 + N.of_nat k)%N by lia.
        by replace (N.to_nat i + S k) with (S (N.to_nat i) + k) by lia.
Qed.

Lemma for_loop_slotwise_total h body (Hbody : slotwise h body) (n : nat) :
  forall (i : N) s,
    N.to_nat i + n <= length s ->
    (forall (j : N) x, is_Ok (h j x)) ->
    is_Ok (for_loop n i body s).
Proof.
  induction n as [|n IH]; intros i s Hlen Hh.
  - by exists s.
  - destruct (lookup_lt_is_Some_2 s (N.to_nat i)) as [x0 Hx0]; [lia|].
    simpl. rewrite (Hbody i s x0 Hx0).
    destruct (Hh i x0) as [v0 ->]. rewrite !result_bind_Ok.
    apply IH; [rewrite length_insert; lia|done].
Qed.

Lemma slotwise_compound_slot (op : T -> T -> result T) b :
  slotwise (fun i x => op x (default def_value (_sequence b !! N.to_nat i)))
           (compound_slot op b).
Proof.
  intros i s x Hx. unfold compound_slot.
  rewrite op_index_const_spec, result_bind_Ok.
  rewrite (vector_index_Some s i x Hx), result_bind_Ok.
  destruct (op x _) as [v|e]; [|done].
  by rewrite !result_bind_Ok, (vector_assign_Some s i v x Hx).
Qed.

(** The storage a compound assignment works on: the receiver, grown with
    zeros when it was the shorter operand. *)
Lemma compound_storage c b :
  (size b < Int.SIZE_MAX)%N ->
  let limit := max_val (size c) (size b) in
  let c1 := if (size c <? limit)%N then resize (Int.sz_add limit 1) c else c in
  N.to_nat limit <= length (_sequence c1) /\
  forall i, op_index_const c1 i = op_index_const c i.
Proof.
  intros Hmax limit c1. unfold c1, limit, max_val.
  destruct (N.ltb_spec (size c) (N.max (size c) (size b))) as [Hlt|Hge].
  - rewrite IntFacts.sz_add_small by lia.
    rewrite resize_grow by lia. simpl. split.
    + rewrite length_app, length_replicate. unfold size in *. lia.
    + intros i. rewrite !op_index_const_spec. simpl. f_equal.
      destruct (_sequence c !! N.to_nat i) as [x|] eqn:Hx.
      * by rewrite (lookup_app_l_Some _ _ _ _ Hx).
      * apply lookup_ge_None_1 in Hx. rewrite lookup_app_r by done.
        destruct (replicate _ _ !! _) as [y|] eqn:Hy; [|done].
        apply lookup_replicate in Hy as [-> _]. done.
  - split; [unfold size in *; lia|done].
Qed.

(** Every slot below [max(size, b.size())] ends as [this[i] op b[i]], both
    operands read with zero fill. *)
Lemma compound_assign_elements (op : T -> T -> result T) c b c' :
  (size b < Int.SIZE_MAX)%N ->
  compound_assign op c b = Ok c' ->
  forall i, (i < max_val (size c) (size b))%N ->
    exists x y v,
      op_index_const c i = Ok x /\ op_index_const b i = Ok y /\
      op x y = Ok v /\ op_index_const c' i = Ok v.
Proof.
  intros Hmax Hrun i Hi.
  destruct (compound_storage c b Hmax) as [Hlen Hread].
  unfold compound_assign in Hrun.
  set (limit := max_val (size c) (size b)) in *.
  set (c1 := if (size c <? limit)%N then _ else _) in *.
  destruct (for_range _ _ _) as [s|] eqn:Hloop; [|done].
  injection Hrun as <-. unfold for_range in Hloop.
  apply (for_loop_slotwise _ _ (slotwise_compound_slot op b)) in Hloop;
    [|simpl; lia].
  destruct Hloop as (Hlen' & _ & Hin).
  destruct (lookup_lt_is_Some_2 (_sequence c1) (N.to_nat i)) as [x Hx]; [lia|].
  destruct (Hin (N.to_nat i) x) as (v & Hv & Hs); [lia|done|].
  simpl in Hv, Hs. rewrite N2Nat.id in Hv.
  exists x, (default def_value (_sequence b !! N.to_nat i)), v.
  split; [|split; [apply op_index_const_spec|split; [done|]]].
  - by rewrite <- Hread, op_index_const_spec, Hx.
  - by rewrite op_index_const_spec; simpl; rewrite Hs.
Qed.

Lemma compound_assign_total (op : T -> T -> result T) c b :
  (size b < Int.SIZE_MAX)%N ->
  (forall x y, is_Ok (op x y)) ->
  is_Ok (compound_assign op c b).
Proof.
  intros Hmax Hop.
  destruct (compound_storage c b Hmax) as [Hlen _].
  unfold compound_assign.
  destruct (for_loop_slotwise_total _ _ (slotwise_compound_slot op b)
              (N.to_nat (max_val (size c) (size b))) 0%N
              (_sequence (if (size c <? max_val (size c) (size b))%N
                          then resize (Int.sz_add (max_val (size c) (size b)) 1) c
                          else c)))
    as [s Hs]; [simpl; lia|by intros|].
  unfold for_range. rewrite Hs. by eexists.
Qed.

End CompoundFacts.

(** ** Expression nodes *)

Section ExpressionFacts.
Context {T : Type} `{Element T}.
Implicit Types (c : SeqContainer T) (σ : store T) (x y : loc) (i : N).

Lemma deref_Some σ x c : σ !! x = Some c -> deref σ x = Ok c.
Proof. unfold deref. by intros ->. Qed.

(** An operand bound by const reference is read without touching the store. *)
Lemma expr_index_const_ref σ x c i :
  σ !! x = Some c ->
  expr_index (const_ref x) i σ
  = Ok (default def_value (_sequence c !! N.to_nat i), σ).
Proof.
  intros Hx. simpl. rewrite (deref_Some _ _ _ Hx). simpl.
  by rewrite op_index_const_spec.
Qed.

(** One bound by a mutable reference is grown by a read past its end. *)
Lemma expr_index_mutable_ref_ge σ x c i :
  σ !! x = Some c -> (size c <= i)%N -> (i < Int.SIZE_MAX)%N ->
  expr_index (mutable_ref x) i σ
  = Ok (value_init, <[x := resize (i + 1) c]> σ).
Proof.
  intros Hx Hge Hmax. simpl. rewrite (deref_Some _ _ _ Hx). simpl.
  rewrite op_index_ge by done. simpl.
  rewrite resize_grow by lia. simpl.
  unfold size in Hge.
  rewrite (vector_index_Some _ _ value_init); [done|].
  rewrite lookup_app_r by lia.
  apply lookup_replicate_2. lia.
Qed.

Lemma expr_index_mutable_ref_lt σ x c i :
  σ !! x = Some c -> (i < size c)%N ->
  expr_index (mutable_ref x) i σ
  = Ok (default def_value (_sequence c !! N.to_nat i), σ).
Proof.
  intros Hx Hlt. simpl. rewrite (deref_Some _ _ _ Hx). simpl.
  rewrite op_index_lt by done. simpl.
  destruct (op_index_const_lt c i Hlt) as (v & Hv & _).
  rewrite (vector_index_Some _ _ v Hv), Hv. simpl.
  unfold store in *. by rewrite insert_id.
Qed.

End ExpressionFacts.

(** ** The catalogue on [intmax_t] *)

Module CatalogueFacts.
Import Intmax.

(** Apart from [Mod_Op] and [LeftShift_Op], the four overloads of a
    catalogue entry denote the element operator it stands for (the third
    overload of [RightShift_Op] where it instantiates, see
    [assigns_to_const]). *)
Lemma overloads_agree (op : BinaryOp) (o : overload) (a b : intmax_t) :
  op <> Mod_Op -> op <> LeftShift_Op ->
  apply_op op o a b = element_op op a b.
Proof.
  intros Hmod Hshl.
  destruct op, o; try done; simpl; f_equal.
  - by rewrite Z.add_comm.
  - by rewrite Z.mul_comm.
  - apply Z.land_comm.
  - apply Z.lor_comm.
  - apply Z.lxor_comm.
Qed.

Lemma Mod_Op_nonzero (o : overload) (a b : intmax_t) :
  b <> 0%Z -> Mod_Op_apply o a b = modulo a b.
Proof.
  intros Hb. destruct o; try done. simpl.
  by destruct (Z.eqb_spec b 0).
Qed.

Lemma Mod_Op_zero_guarded (a : intmax_t) :
  Mod_Op_apply const_const a 0%Z = Ok 0%Z.
Proof. reflexivity. Qed.

Lemma Mod_Op_zero_unguarded (o : overload) (a : intmax_t) :
  o <> const_const -> Mod_Op_apply o a 0%Z = Err division_by_zero.
Proof. by destruct o. Qed.

Lemma LeftShift_Op_other (o : overload) (a b : intmax_t) :
  o <> const_rvalue -> LeftShift_Op_apply o a b = shift_left a b.
Proof. by destruct o. Qed.

(** [operator+=] on [intmax_t] always returns: sums below the longer
    length, and one slot more than [b] when the receiver was the shorter. *)
Lemma op_add_assign_spec (c b : SeqContainer intmax_t) :
  (size b < Int.SIZE_MAX)%N ->
  exists c',
    op_add_assign c b = Ok c' /\
    size c' = (if (size c <? size b)%N then (size b + 1)%N else size c) /\
    forall i, (i < max_val (size c) (size b))%N ->
      exists x y,
        op_index_const c i = Ok x /\ op_index_const b i = Ok y /\
        op_index_const c' i = Ok (wrap64 (x + y)).
Proof.
  intros Hmax.
  destruct (compound_assign_total plus c b Hmax) as [c' Hrun].
  { intros x y. by eexists. }
  exists c'. split; [done|]. split; [by eapply compound_assign_size|].
  intros i Hi.
  destruct (compound_assign_elements plus c b c' Hmax Hrun i Hi)
    as (x & y & v & Hx & Hy & Hv & Hc').
  exists x, y. injection Hv as <-. done.
Qed.

End CatalogueFacts.

Section NodeFacts.
Context {T : Type} `{Element T}.

Lemma expr_index_template (l r : Expr) (op : BinaryOp) (i : N) (σ : store T) :
  expr_index (ExprTemplate l op r) i σ =
  '(a, σ1) ← expr_index l i σ;
  '(b, σ2) ← expr_index r i σ1;
  v ← apply_op op (overload_of l r) a b;
  Ok (v, σ2).
Proof. reflexivity. Qed.

Lemma read_past_end (c : SeqContainer T) (i : N) :
  (size c <= i)%N -> default def_value (_sequence c !! N.to_nat i) = value_init.
Proof.
  intros Hge. unfold size in Hge. by rewrite lookup_ge_None_2 by lia.
Qed.

End NodeFacts.

(** * The claims *)

Section Claims.
Import Intmax.

(** C1: compound assignment [m += n] is claimed to leave
    [m.size() == max(m.size(), n.size())], and [(1,2,3) += (0,1,2,3,4)] to
    give [(1,3,5,3,4)] of size 5.  Every compound assignment resizes a
    shorter receiver to [limit + 1]: both overloads of [operator+=] (the one
    on [const SeqContainer&], and the template one that a non-const [n]
    selects) leave [(1,3,5,3,4,0)], of size 6. *)
Theorem add_assign_resizes_one_past_max :
  let m : SeqContainer intmax_t := mk_seq [1; 2; 3]%Z in
  let n : SeqContainer intmax_t := mk_seq [0; 1; 2; 3; 4]%Z in
  let σ : store intmax_t := <[0%nat := m]> (<[1%nat := n]> ∅) in
  let grown : SeqContainer intmax_t := mk_seq [1; 3; 5; 3; 4; 0]%Z in
  op_add_assign m n = Ok grown /\
  size grown = 6%N /\
  max_val (size m) (size n) = 5%N /\
  op_add_assign_expr 0%nat (mutable_ref 1%nat) σ
    ≫= (fun σ' => Ok (σ' !! 0%nat, σ' !! 1%nat))
  = Ok (Some grown, Some n).
Proof. by vm_compute. Qed.

(** C2: the four overloads of a catalogue operation are claimed to return
    the same result, left shift included.  [LeftShift_Op::apply(T const&,
    T&&)] shifts right: on [(1, 1)] it gives 0 where the other three
    overloads give 2. *)
Theorem left_shift_overload_shifts_right :
  (forall a b : intmax_t,
     LeftShift_Op_apply const_rvalue a b = RightShift_Op_apply const_const a b) /\
  LeftShift_Op_apply const_rvalue 1%Z 1%Z = Ok 0%Z /\
  LeftShift_Op_apply const_const 1%Z 1%Z = Ok 2%Z /\
  LeftShift_Op_apply rvalue_const 1%Z 1%Z = Ok 2%Z /\
  LeftShift_Op_apply rvalue_rvalue 1%Z 1%Z = Ok 2%Z.
Proof. split; [reflexivity|by vm_compute]. Qed.

(** C3: modulo by zero is claimed to yield zero in all four overloads and
    in [container %= container].  Only [Mod_Op::apply(T const&, T const&)]
    tests the divisor; the other overloads and [operator%=] divide by it. *)
Theorem modulo_by_zero_unguarded (a : intmax_t) :
  Mod_Op_apply const_const a 0%Z = Ok 0%Z /\
  Mod_Op_apply rvalue_const a 0%Z = Err division_by_zero /\
  Mod_Op_apply const_rvalue a 0%Z = Err division_by_zero /\
  Mod_Op_apply rvalue_rvalue a 0%Z = Err division_by_zero /\
  op_mod_assign (mk_seq [a]) (mk_seq [0%Z]) = Err division_by_zero /\
  op_mod_assign_expr 0%nat (mutable_ref 1%nat)
    (<[0%nat := mk_seq [a]]> (<[1%nat := mk_seq [0%Z]]> ∅))
  = Err division_by_zero.
Proof. repeat split. Qed.

(** C4: containers compare by length only: [operator<=>] is [greater] for
    the longer left operand, [less] for the shorter one and [equivalent] for
    equal sizes whatever the elements, and then [operator==] holds. *)
Theorem compare_by_length {T : Type} (a b : SeqContainer T) :
  ((size b < size a)%N -> op_spaceship a b = greater) /\
  ((size a < size b)%N -> op_spaceship a b = less) /\
  (size a = size b -> op_spaceship a b = equivalent /\ op_eq a b = true).
Proof.
  split; [|split].
  - apply op_spaceship_greater.
  - apply op_spaceship_less.
  - intros Heq. split; [by apply op_spaceship_equivalent|by apply op_eq_size].
Qed.

(** C5: the const indexed read [c[i]] returns the element at [i] when
    [i < c.size()] and the default (zero) element otherwise; it is a pure
    function of the container, so nothing grows and nothing fails, and the
    node [m + n] with [n] bound by const reference yields 0 at every index
    [i >= max(len(m), len(n))].  The node is claimed to do so for all
    containers.  A non-const [n] is bound by a mutable reference and read
    through the mutable subscript: below [SIZE_MAX] the read yields 0 but
    leaves [n] resized to [i + 1] elements, and at [SIZE_MAX], where
    [index + 1] wraps to 0, it empties [n] and leaves its storage. *)
Theorem node_read_grows_mutable_operand {T : Type} `{Element T}
    (c : SeqContainer T) (i : N) :
  ((i < size c)%N ->
   exists x, _sequence c !! N.to_nat i = Some x /\ op_index_const c i = Ok x) /\
  ((size c <= i)%N -> op_index_const c i = Ok value_init) /\
  (forall (σ : store intmax_t) (x y : loc) (m n : SeqContainer intmax_t) (j : N),
     σ !! x = Some m -> σ !! y = Some n ->
     (N.max (size m) (size n) <= j)%N ->
     expr_index (container_op Add_Op x (const_ref y)) j σ = Ok (0%Z, σ) /\
     ((j < Int.SIZE_MAX)%N ->
      expr_index (container_op Add_Op x (mutable_ref y)) j σ
      = Ok (0%Z, <[y := resize (j + 1) n]> σ) /\
      size (resize (j + 1) n) = (j + 1)%N /\
      (size n < size (resize (j + 1) n))%N) /\
     (j = Int.SIZE_MAX ->
      expr_index (container_op Add_Op x (mutable_ref y)) j σ
      = Err out_of_range)).
Proof.
  split; [apply op_index_const_lt|]. split; [apply op_index_const_ge|].
  intros σ x y m n j Hx Hy Hj. unfold container_op.
  rewrite !expr_index_template, (expr_index_const_ref σ x m j Hx).
  rewrite read_past_end by lia. split; [|split].
  - rewrite result_bind_Ok. cbv beta iota.
    rewrite (expr_index_const_ref σ y n j Hy), read_past_end by lia.
    reflexivity.
  - intros Hmax. rewrite result_bind_Ok. cbv beta iota.
    rewrite (expr_index_mutable_ref_ge σ y n j Hy) by (done || lia).
    split; [reflexivity|]. rewrite size_resize. split; [done|lia].
  - intros ->. rewrite result_bind_Ok. cbv beta iota.
    cbn [expr_index]. rewrite (deref_Some _ _ _ Hy), result_bind_Ok.
    rewrite op_index_last by lia. reflexivity.
Qed.

(** C6: the mutable indexed write [c[i] = v] with [i >= c.size()] grows
    the container to exactly [i + 1] elements, the old elements kept and the
    gap zero-filled, before slot [i] is assigned ([i + 1] being a
    [std::size_t]); so writing slot 999 of an empty container gives size
    1000, zeros in [0..998] and the value in slot 999. *)
Theorem indexed_write_grows {T : Type} `{Element T}
    (c : SeqContainer T) (i : N) (v : T) :
  (size c <= i)%N -> (i < Int.SIZE_MAX)%N ->
  (exists c0,
     op_index c i = Ok c0 /\ size c0 = (i + 1)%N /\
     _sequence c0
     = _sequence c ++ replicate (N.to_nat (i + 1 - size c)) value_init) /\
  (exists c',
     write c i v = Ok c' /\ size c' = (i + 1)%N /\
     _sequence c'
     = _sequence c ++ replicate (N.to_nat (i - size c)) value_init ++ [v] /\
     (forall j, (j < size c)%N -> op_index_const c' j = op_index_const c j) /\
     (forall j, (size c <= j < i)%N -> op_index_const c' j = Ok value_init) /\
     op_index_const c' i = Ok v).
Proof.
  intros Hge Hmax. split.
  - exists (resize (i + 1) c). split; [by apply op_index_ge|].
    split; [apply size_resize|].
    rewrite resize_grow by lia. simpl. do 2 f_equal. unfold size. lia.
  - eexists. split; [by apply write_ge|].
    assert (N.to_nat i - length (_sequence c) = N.to_nat (i - size c)) as ->
      by (unfold size; lia).
    set (gap := replicate _ _).
    assert (length gap = N.to_nat (i - size c)) as Hgap
      by apply length_replicate.
    unfold size in *. simpl.
    split; [rewrite !length_app, Hgap; simpl; lia|].
    split; [done|]. split; [|split].
    + intros j Hj. rewrite !op_index_const_spec. simpl.
      by rewrite lookup_app_l by lia.
    + intros j Hj. rewrite op_index_const_spec. simpl.
      rewrite lookup_app_r, lookup_app_l by lia.
      unfold gap. rewrite lookup_replicate_2 by lia. done.
    + rewrite op_index_const_spec. simpl.
      rewrite lookup_app_r, lookup_app_r by lia.
      replace (N.to_nat i - length (_sequence c) - length gap) with 0 by lia.
      done.
Qed.

(** C7: on a container of length [L > 0], [cshift(k)] followed by
    [cshift(-k)] restores the element sequence, for every [int] [k] whose
    opposite is an [int]; [shift(k)] followed by [shift(-k)] need not: the
    [d = |k| mod L] positions that [shift(k)] drops come back as zeros. *)
Theorem rotation_pair {T : Type} `{Element T} (c : SeqContainer T) (k : Z) :
  (0 < size c)%N -> (Int.INT_MIN < k <= Int.INT_MAX)%Z ->
  cshift (- k) (cshift k c) = c /\
  (let n := length (_sequence c) in
   let d := N.to_nat (Int.to_size_t (Z.abs k) mod size c) in
   shift k c
   = Ok (mk_seq (if (0 <? k)%Z
                 then replicate d value_init ++ take (n - d) (_sequence c)
                 else drop d (_sequence c) ++ replicate d value_init)) /\
   shift k c ≫= shift (- k)
   = Ok (mk_seq (if (0 <? k)%Z
                 then take (n - d) (_sequence c) ++ replicate d value_init
                 else replicate d value_init ++ drop d (_sequence c)))) /\
  (exists (c0 : SeqContainer intmax_t) (k0 : Z),
     (0 < size c0)%N /\ (Int.INT_MIN < k0 <= Int.INT_MAX)%Z /\
     shift k0 c0 ≫= shift (- k0) <> Ok c0).
Proof.
  intros Hpos Hk. split; [by apply cshift_cshift_opp|]. split.
  - intros n d. destruct (Z.ltb_spec 0 k) as [Hk0|Hk0].
    + assert (Z.abs k = k) as Habs by lia. unfold d. rewrite Habs. split.
      * rewrite shift_pos by done. by apply rotate_left_and_drop_nonempty.
      * apply shift_shift_opp_pos; [done|lia].
    + assert (shift k c
              = Ok (mk_seq (drop d (_sequence c) ++ replicate d value_init)))
        as Hshift.
      { rewrite shift_nonpos, IntFacts.std_abs_small by done.
        by apply rotate_right_and_drop_nonempty. }
      split; [done|].
      destruct (Z.eq_dec k 0) as [->|Hne].
      * assert (d = 0) as Hd by (unfold d; simpl; by rewrite N.Div0.mod_0_l).
        rewrite Hd in *. simpl in Hshift. rewrite drop_0, app_nil_r in Hshift.
        replace (mk_seq (_sequence c)) with c in Hshift by (by destruct c).
        change (- 0)%Z with 0%Z.
        rewrite Hshift, result_bind_Ok, Hshift. simpl. rewrite drop_0.
        by destruct c.
      * assert (Z.abs k = (- k)%Z) as Habs by lia. unfold d. rewrite Habs.
        apply shift_shift_opp_neg; [done|lia].
  - exists (mk_seq [1; 2; 3]%Z), 1%Z. by vm_compute.
Qed.

(** C8: [shift(k)] and [cshift(k)] leave [c.size()] unchanged, for every
    container and every [k]; so do the four rotations they are made of, the
    drop variants included, for every amount. *)
Theorem shifts_preserve_size {T : Type} `{Element T} (c : SeqContainer T) (k : Z) :
  size (cshift k c) = size c /\
  (exists c', shift k c = Ok c' /\ size c' = size c) /\
  (forall amount : N,
     size (rotate_left amount c) = size c /\
     size (rotate_right amount c) = size c /\
     (exists c', rotate_left_and_drop amount c = Ok c' /\ size c' = size c) /\
     (exists c', rotate_right_and_drop amount c = Ok c' /\ size c' = size c)).
Proof.
  split; [|split].
  - unfold cshift. destruct (0 <? k)%Z;
      [apply size_rotate_left|apply size_rotate_right].
  - unfold shift. destruct (0 <? k)%Z;
      [apply rotate_left_and_drop_size|apply rotate_right_and_drop_size].
  - intros amount. split; [apply size_rotate_left|].
    split; [apply size_rotate_right|].
    split; [apply rotate_left_and_drop_size|apply rotate_right_and_drop_size].
Qed.

(** C9: for [b] shorter than [a], the binary [a.apply(b, func)] is claimed
    to read [b] with the zero fill of the indexed read and never outside its
    storage.  The pass reads [b._sequence[i]] unchecked up to [a.size()]: it
    leaves [b]'s storage at [i = b.size()]. *)
Theorem apply_binary_reads_past_shorter {T : Type} `{Element T}
    (func : T -> T -> T) (a b : SeqContainer T) :
  (size b < size a)%N ->
  apply_binary func a b = Err out_of_range /\
  op_index_const b (size b) = Ok value_init.
Proof.
  intros Hlt. split; [by apply apply_binary_shorter|].
  by apply op_index_const_ge.
Qed.

(** C10: [operator~] complements every element of the receiver in place and
    returns a copy of the receiver so changed; [operator-] leaves the
    receiver as it was and returns a negated copy. *)
Theorem complement_mutates_receiver {T : Type} `{Element T} (c : SeqContainer T) :
  (exists this' returned,
     op_compl c = Ok (this', returned) /\
     _sequence this' = complement <$> _sequence c /\
     returned = this') /\
  (exists returned,
     op_neg c = Ok (c, returned) /\
     _sequence returned = negate <$> _sequence c).
Proof.
  split.
  - do 2 eexists. split; [apply op_compl_spec|done].
  - eexists. split; [apply op_neg_spec|done].
Qed.

End Claims.

(** ** The claims at concrete containers *)

Section Witnesses.
Import Intmax.

(** The comparison of [(1,2,3)] with [(1)], of [(1)] with [(1,2,3)], and of
    the equally long but different [(1,2)] and [(3,4)]. *)
Lemma compare_by_length_witness :
  op_spaceship (T := intmax_t) (mk_seq [1; 2; 3]%Z) (mk_seq [1%Z]) = greater /\
  op_spaceship (T := intmax_t) (mk_seq [1%Z]) (mk_seq [1; 2; 3]%Z) = less /\
  (mk_seq [1; 2]%Z <> mk_seq [3; 4]%Z :> SeqContainer intmax_t) /\
  op_spaceship (T := intmax_t) (mk_seq [1; 2]%Z) (mk_seq [3; 4]%Z) = equivalent /\
  op_eq (T := intmax_t) (mk_seq [1; 2]%Z) (mk_seq [3; 4]%Z) = true.
Proof.
  split; [|split; [|split]].
  - apply (proj1 (compare_by_length (mk_seq [1; 2; 3]%Z) (mk_seq [1%Z]))).
    reflexivity.
  - apply (proj1 (proj2 (compare_by_length (mk_seq [1%Z]) (mk_seq [1; 2; 3]%Z)))).
    reflexivity.
  - discriminate.
  - apply (proj2 (proj2 (compare_by_length (mk_seq [1; 2]%Z) (mk_seq [3; 4]%Z)))).
    reflexivity.
Defined.

(** With [m = (1,2,3)] and [n = (4,5)]: [m[1]], [m[5]], and [(m + n)[7]]
    and [(m + n)[SIZE_MAX]] with [n] bound either way. *)
Lemma node_read_grows_mutable_operand_witness :
  op_index_const (T := intmax_t) (mk_seq [1; 2; 3]%Z) 1 = Ok 2%Z /\
  op_index_const (T := intmax_t) (mk_seq [1; 2; 3]%Z) 5 = Ok 0%Z /\
  expr_index (container_op Add_Op 0%nat (const_ref 1%nat)) 7
    (<[0%nat := mk_seq [1; 2; 3]%Z]> (<[1%nat := mk_seq [4; 5]%Z]> ∅))
  = Ok (0%Z, <[0%nat := mk_seq [1; 2; 3]%Z]> (<[1%nat := mk_seq [4; 5]%Z]> ∅)) /\
  expr_index (container_op Add_Op 0%nat (mutable_ref 1%nat)) 7
    (<[0%nat := mk_seq [1; 2; 3]%Z]> (<[1%nat := mk_seq [4; 5]%Z]> ∅))
  = Ok (0%Z,
        <[1%nat := resize 8 (mk_seq [4; 5]%Z)]>
          (<[0%nat := mk_seq [1; 2; 3]%Z]> (<[1%nat := mk_seq [4; 5]%Z]> ∅))) /\
  size (T := intmax_t) (resize 8 (mk_seq [4; 5]%Z)) = 8%N /\
  expr_index (container_op Add_Op 0%nat (const_ref 1%nat)) Int.SIZE_MAX
    (<[0%nat := mk_seq [1; 2; 3]%Z]> (<[1%nat := mk_seq [4; 5]%Z]> ∅))
  = Ok (0%Z, <[0%nat := mk_seq [1; 2; 3]%Z]> (<[1%nat := mk_seq [4; 5]%Z]> ∅)) /\
  expr_index (container_op Add_Op 0%nat (mutable_ref 1%nat)) Int.SIZE_MAX
    (<[0%nat := mk_seq [1; 2; 3]%Z]> (<[1%nat := mk_seq [4; 5]%Z]> ∅))
  = Err out_of_range.
Proof.
  split; [|split; [|split; [|split; [|split; [|split]]]]].
  - destruct (proj1 (node_read_grows_mutable_operand (T := intmax_t)
                       (mk_seq [1; 2; 3]%Z) 1))
      as (x & Hx & Hread); [reflexivity|].
    rewrite Hread. f_equal. simpl in Hx. congruence.
  - assert (size (T := intmax_t) (mk_seq [1; 2; 3]%Z) <= 5)%N as Hge
      by (vm_compute; discriminate).
    exact (proj1 (proj2 (node_read_grows_mutable_operand (mk_seq [1; 2; 3]%Z) 5)) Hge).
  - pose proof (node_read_grows_mutable_operand (T := intmax_t) (mk_seq []) 0) as Hread.
    destruct Hread as (_ & _ & Hnode).
    destruct (Hnode (<[0%nat := mk_seq [1; 2; 3]%Z]> (<[1%nat := mk_seq [4; 5]%Z]> ∅))
                0%nat 1%nat (mk_seq [1; 2; 3]%Z) (mk_seq [4; 5]%Z) 7%N)
      as [Hconst _]; [by vm_compute..|].
    exact Hconst.
  - pose proof (node_read_grows_mutable_operand (T := intmax_t) (mk_seq []) 0) as Hread.
    destruct Hread as (_ & _ & Hnode).
    destruct (Hnode (<[0%nat := mk_seq [1; 2; 3]%Z]> (<[1%nat := mk_seq [4; 5]%Z]> ∅))
                0%nat 1%nat (mk_seq [1; 2; 3]%Z) (mk_seq [4; 5]%Z) 7%N)
      as (_ & Hmutable & _); [by vm_compute..|].
    exact (proj1 (Hmutable eq_refl)).
  - pose proof (node_read_grows_mutable_operand (T := intmax_t) (mk_seq []) 0) as Hread.
    destruct Hread as (_ & _ & Hnode).
    destruct (Hnode (<[0%nat := mk_seq [1; 2; 3]%Z]> (<[1%nat := mk_seq [4; 5]%Z]> ∅))
                0%nat 1%nat (mk_seq [1; 2; 3]%Z) (mk_seq [4; 5]%Z) 7%N)
      as (_ & Hmutable & _); [by vm_compute..|].
    exact (proj1 (proj2 (Hmutable eq_refl))).
  - pose proof (node_read_grows_mutable_operand (T := intmax_t) (mk_seq []) 0) as Hread.
    destruct Hread as (_ & _ & Hnode).
    destruct (Hnode (<[0%nat := mk_seq [1; 2; 3]%Z]> (<[1%nat := mk_seq [4; 5]%Z]> ∅))
                0%nat 1%nat (mk_seq [1; 2; 3]%Z) (mk_seq [4; 5]%Z) Int.SIZE_MAX)
      as (Hconst & _ & _);
      [by vm_compute|by vm_compute|vm_compute; discriminate|].
    exact Hconst.
  - pose proof (node_read_grows_mutable_operand (T := intmax_t) (mk_seq []) 0) as Hread.
    destruct Hread as (_ & _ & Hnode).
    destruct (Hnode (<[0%nat := mk_seq [1; 2; 3]%Z]> (<[1%nat := mk_seq [4; 5]%Z]> ∅))
                0%nat 1%nat (mk_seq [1; 2; 3]%Z) (mk_seq [4; 5]%Z) Int.SIZE_MAX)
      as (_ & _ & Hlast);
      [by vm_compute|by vm_compute|vm_compute; discriminate|].
    exact (Hlast eq_refl).
Defined.

(** Growth on write: [c[999] = 5] on the empty container. *)
Lemma indexed_write_grows_witness :
  exists c' : SeqContainer intmax_t,
    write (mk_seq []) 999 5%Z = Ok c' /\
    size c' = 1000%N /\
    (forall j, (0 <= j < 999)%N -> op_index_const c' j = Ok 0%Z) /\
    op_index_const c' 999 = Ok 5%Z.
Proof.
  destruct (indexed_write_grows (T := intmax_t) (mk_seq []) 999 5%Z)
    as [_ (c' & Hwrite & Hsize & _ & _ & Hgap & Hslot)].
  - vm_compute. discriminate.
  - reflexivity.
  - exists c'. split; [exact Hwrite|]. split; [exact Hsize|].
    split; [exact Hgap|exact Hslot].
Defined.

(** The two rotation pairs on [(1,2,3)] with [k = 1]. *)
Lemma rotation_pair_witness :
  cshift (T := intmax_t) (- 1) (cshift 1 (mk_seq [1; 2; 3]%Z)) = mk_seq [1; 2; 3]%Z /\
  shift (T := intmax_t) 1 (mk_seq [1; 2; 3]%Z) = Ok (mk_seq [0; 1; 2]%Z) /\
  shift (T := intmax_t) 1 (mk_seq [1; 2; 3]%Z) ≫= shift (- 1)
  = Ok (mk_seq [1; 2; 0]%Z).
Proof.
  destruct (rotation_pair (T := intmax_t) (mk_seq [1; 2; 3]%Z) 1)
    as (Hcshift & [Hshift Hpair] & _).
  - reflexivity.
  - split; [reflexivity|vm_compute; discriminate].
  - split; [exact Hcshift|]. split; [exact Hshift|exact Hpair].
Defined.

(** The binary [apply] on [a = (1,2)], [b = (1)] and addition. *)
Lemma apply_binary_reads_past_shorter_witness :
  apply_binary (T := intmax_t) Z.add (mk_seq [1; 2]%Z) (mk_seq [1%Z])
  = Err out_of_range.
Proof.
  apply (proj1 (apply_binary_reads_past_shorter (T := intmax_t) Z.add
                  (mk_seq [1; 2]%Z) (mk_seq [1%Z]) eq_refl)).
Defined.

End Witnesses.

(** * Further properties of the code *)

(** ** Resize, indexed write, push, pop and insert *)

Section ContainerMoreFacts.
Context {T : Type} `{Element T}.
Implicit Types (c : SeqContainer T) (v x : T).

Lemma resize_fill_sequence (sz : N) v c :
  _sequence (resize_fill sz v c)
  = take (N.to_nat sz) (_sequence c)
    ++ replicate (N.to_nat sz - length (_sequence c)) v.
Proof.
  unfold resize_fill, size.
  destruct (N.leb_spec (N.of_nat (length (_sequence c))) sz) as [Hle|Hlt];
    [done|].
  replace (N.to_nat sz - length (_sequence c)) with 0 by lia.
  destruct (N.ltb_spec 0 sz) as [Hpos|Hz]; simpl.
  - unfold vector_resize.
    by replace (N.to_nat sz - length (_sequence c)) with 0 by lia.
  - replace (N.to_nat sz) with 0 by lia. done.
Qed.

Lemma write_lt c (i : N) v :
  (i < size c)%N -> write c i v = Ok (mk_seq (<[N.to_nat i := v]> (_sequence c))).
Proof.
  intros Hlt. unfold write. rewrite op_index_lt by done.
  rewrite result_bind_Ok.
  destruct (op_index_const_lt c i Hlt) as (x & Hx & _).
  by rewrite (vector_assign_Some _ i v x Hx).
Qed.

Lemma op_index_const_mk_seq (s : list T) (i : N) :
  op_index_const (mk_seq s) i = Ok (default value_init (s !! N.to_nat i)).
Proof. apply op_index_const_spec. Qed.

End ContainerMoreFacts.

Section ContainerMoreTheorems.
Context {T : Type} `{Element T}.
Implicit Types (c : SeqContainer T) (v x : T).

(** X1: [resize(n, value)] leaves exactly [n] elements: the first
    [min(n, size())] old ones, then [n - size()] copies of [value].  The
    value plays no part in a shrink, and [resize(0, value)] empties. *)
Theorem resize_keeps_prefix_and_fills (sz : N) v c :
  size (resize_fill sz v c) = sz /\
  _sequence (resize_fill sz v c)
  = take (N.to_nat sz) (_sequence c)
    ++ replicate (N.to_nat (sz - size c)) v /\
  (forall j, (j < N.min sz (size c))%N ->
     op_index_const (resize_fill sz v c) j = op_index_const c j) /\
  (forall j, (size c <= j < sz)%N -> op_index_const (resize_fill sz v c) j = Ok v).
Proof.
  split; [apply size_resize_fill|].
  assert (N.to_nat (sz - size c) = N.to_nat sz - length (_sequence c)) as Hgap
    by (unfold size; lia).
  rewrite Hgap. split; [apply resize_fill_sequence|]. split.
  - intros j Hj. rewrite !op_index_const_spec, resize_fill_sequence.
    unfold size in Hj.
    rewrite lookup_app_l by (rewrite length_take; lia).
    by rewrite lookup_take_lt by lia.
  - intros j Hj. rewrite op_index_const_spec, resize_fill_sequence.
    unfold size in Hj.
    rewrite lookup_app_r by (rewrite length_take; lia).
    rewrite lookup_replicate_2; [done|]. rewrite length_take. lia.
Qed.

(** X2: read after write.  For every index below [SIZE_MAX], [c[i] = v]
    succeeds, leaves [max(size(), i + 1)] elements, makes [c[i]] read [v]
    and leaves every other index reading what it read before. *)
Theorem write_then_read c (i : N) v :
  (i < Int.SIZE_MAX)%N ->
  exists c',
    write c i v = Ok c' /\
    size c' = N.max (size c) (i + 1) /\
    op_index_const c' i = Ok v /\
    forall j, j <> i -> op_index_const c' j = op_index_const c j.
Proof.
  intros Hmax. destruct (N.lt_ge_cases i (size c)) as [Hlt|Hge].
  - eexists. split; [by apply write_lt|].
    unfold size in *. simpl. rewrite length_insert.
    split; [lia|]. split.
    + rewrite op_index_const_mk_seq, list_lookup_insert_eq by lia. done.
    + intros j Hj. rewrite op_index_const_mk_seq, op_index_const_spec.
      rewrite list_lookup_insert_ne by lia. done.
  - eexists. split; [by apply write_ge|].
    set (gap := replicate _ _).
    assert (length gap = N.to_nat i - length (_sequence c)) as Hgap
      by apply length_replicate.
    unfold size in *. simpl. rewrite !length_app, Hgap. simpl.
    split; [lia|]. split.
    + rewrite op_index_const_mk_seq.
      rewrite lookup_app_r, lookup_app_r by lia.
      by replace (N.to_nat i - length (_sequence c) - length gap) with 0 by lia.
    + intros j Hj. rewrite op_index_const_mk_seq, op_index_const_spec.
      f_equal.
      destruct (decide (N.to_nat j < length (_sequence c))) as [Hin|Hout].
      * by rewrite lookup_app_l by lia.
      * rewrite (lookup_ge_None_2 (_sequence c)) by lia.
        rewrite lookup_app_r by lia.
        destruct (decide (N.to_nat j - length (_sequence c) < length gap))
          as [Hgapj|Hpast].
        -- rewrite lookup_app_l by lia. unfold gap.
           by rewrite lookup_replicate_2 by lia.
        -- rewrite lookup_app_r by lia.
           rewrite lookup_ge_None_2; [done|]. simpl. lia.
Qed.

(** X3: the index [SIZE_MAX] (what [c[-1]] converts to) has no successor:
    [index + 1] is 0, the container is resized to nothing and slot
    [SIZE_MAX] is outside the storage, for reading through the mutable
    subscript and for writing alike. *)
Theorem write_at_last_index_leaves_storage c v :
  (size c <= Int.SIZE_MAX)%N ->
  Int.sz_add Int.SIZE_MAX 1 = 0%N /\
  op_index c Int.SIZE_MAX = Err out_of_range /\
  write c Int.SIZE_MAX v = Err out_of_range.
Proof.
  intros Hle. split; [by vm_compute|].
  split; [by apply op_index_last|].
  unfold write. by rewrite op_index_last.
Qed.

(** X4: [push_back] appends one element, which [pop_back] removes again;
    [pop_back] on an empty container changes nothing. *)
Theorem pop_back_push_back v c :
  pop_back (push_back v c) = c /\
  size (push_back v c) = (size c + 1)%N /\
  op_index_const (push_back v c) (size c) = Ok v /\
  (forall j, (j < size c)%N ->
     op_index_const (push_back v c) j = op_index_const c j) /\
  size (pop_back c) = (size c - 1)%N /\
  pop_back SeqContainer_default = SeqContainer_default (T := T).
Proof.
  destruct c as [s]. unfold pop_back, push_back, size. simpl.
  split.
  { destruct (N.ltb_spec 0 (N.of_nat (length (s ++ [v])))) as [_|Hz].
    - rewrite length_app. simpl.
      replace (length s + 1 - 1) with (length s) by lia.
      by rewrite take_app_length.
    - rewrite length_app in Hz. simpl in Hz. lia. }
  split; [rewrite length_app; simpl; lia|].
  split.
  { rewrite op_index_const_mk_seq, Nat2N.id.
    rewrite lookup_app_r by lia. by rewrite Nat.sub_diag. }
  split.
  { intros j Hj. rewrite !op_index_const_mk_seq.
    by rewrite lookup_app_l by lia. }
  split; [|done].
  destruct (N.ltb_spec 0 (N.of_nat (length s))) as [Hpos|Hz]; simpl.
  - rewrite length_take. lia.
  - lia.
Qed.

(** The overload of [insert] on [sized_range auto&&] always succeeds.  The
    container is first padded with zeros up to [at]; then the elements of
    [range] sit at [at, at + range.size()), what was before [at] stays and
    what was from [at] on moves up by [range.size()]. *)
Lemma insert_sized_range (at_ : N) (range c : SeqContainer T) :
  let padded :=
    _sequence c ++ replicate (N.to_nat at_ - length (_sequence c)) value_init in
  exists c',
    insert at_ range c = Ok c' /\
    _sequence c'
    = take (N.to_nat at_) padded ++ _sequence range ++ drop (N.to_nat at_) padded /\
    size c' = (N.max (size c) at_ + size range)%N /\
    (forall j, (j < at_)%N -> op_index_const c' j = op_index_const c j) /\
    (forall j, (j < size range)%N ->
       op_index_const c' (at_ + j) = op_index_const range j) /\
    (forall j, (at_ <= j < size c)%N ->
       op_index_const c' (j + size range) = op_index_const c j).
Proof.
  intros padded.
  assert (_sequence (if (size c <? at_)%N then resize at_ c else c) = padded)
    as Hpad.
  { unfold padded. destruct (N.ltb_spec (size c) at_) as [Hlt|Hge].
    - by rewrite resize_grow by lia.
    - unfold size in Hge.
      replace (N.to_nat at_ - length (_sequence c)) with 0 by lia.
      simpl. by rewrite app_nil_r. }
  assert (length padded = N.to_nat (N.max (size c) at_)) as Hlen.
  { unfold padded, size. rewrite length_app, length_replicate. lia. }
  unfold insert. rewrite Hpad. unfold vector_insert.
  destruct (N.leb_spec at_ (N.of_nat (length padded))) as [_|Hbad]; [|lia].
  eexists. split; [reflexivity|]. simpl. split; [done|].
  assert (length (take (N.to_nat at_) padded) = N.to_nat at_) as Htake
    by (rewrite length_take; lia).
  split.
  { unfold size. simpl.
    rewrite !length_app, Htake, length_drop, Hlen. unfold size. lia. }
  split; [|split].
  - intros j Hj. rewrite op_index_const_mk_seq, op_index_const_spec. f_equal.
    rewrite lookup_app_l by lia. rewrite lookup_take_lt by lia.
    unfold padded.
    destruct (decide (N.to_nat j < length (_sequence c))) as [Hin|Hout].
    + by rewrite lookup_app_l by lia.
    + rewrite lookup_app_r by lia.
      rewrite lookup_replicate_2 by lia.
      by rewrite (lookup_ge_None_2 (_sequence c)) by lia.
  - intros j Hj. unfold size in Hj.
    rewrite op_index_const_mk_seq, op_index_const_spec. f_equal.
    rewrite lookup_app_r by lia. rewrite Htake.
    rewrite lookup_app_l by lia.
    by replace (N.to_nat (at_ + j) - N.to_nat at_) with (N.to_nat j) by lia.
  - intros j Hj. unfold size in *.
    rewrite op_index_const_mk_seq, op_index_const_spec. f_equal.
    rewrite lookup_app_r by lia. rewrite Htake.
    rewrite lookup_app_r by lia. rewrite lookup_drop.
    unfold padded. rewrite lookup_app_l by lia.
    by replace (N.to_nat at_ +
                (N.to_nat (j + N.of_nat (length (_sequence range))) -
                 N.to_nat at_ - length (_sequence range)))
      with (N.to_nat j) by lia.
Qed.

End ContainerMoreTheorems.

(** ** Boolean conversion and [apply] *)

Section ApplyFacts.
Context {T : Type} `{Element T}.
Implicit Types (c b : SeqContainer T).

Lemma bool_loop_spec c (n : nat) :
  forall i : N, N.to_nat i + n = length (_sequence c) ->
    bool_loop n i c = Ok (existsb to_bool (drop (N.to_nat i) (_sequence c))).
Proof.
  induction n as [|n IH]; intros i Hlen.
  - simpl. by rewrite drop_ge by lia.
  - destruct (lookup_lt_is_Some_2 (_sequence c) (N.to_nat i)) as [x Hx]; [lia|].
    cbn [bool_loop]. rewrite op_index_const_spec, Hx, result_bind_Ok.
    rewrite (drop_S _ x _ Hx). simpl.
    destruct (to_bool x); [done|]. simpl.
    rewrite IH by lia. by replace (N.to_nat (i + 1)) with (S (N.to_nat i)) by lia.
Qed.

Lemma for_loop_slotwise_ok h body (Hbody : slotwise (T := T) h body) (n : nat) :
  forall (i : N) s,
    N.to_nat i + n <= length s ->
    (forall k x, k < n -> is_Ok (h (i + N.of_nat k)%N x)) ->
    is_Ok (for_loop n i body s).
Proof.
  induction n as [|n IH]; intros i s Hlen Hh.
  - by exists s.
  - destruct (lookup_lt_is_Some_2 s (N.to_nat i)) as [x0 Hx0]; [lia|].
    cbn [for_loop]. rewrite (Hbody i s x0 Hx0).
    destruct (Hh 0 x0) as [v0 Hv0]; [lia|].
    rewrite N.add_0_r in Hv0. rewrite Hv0, !result_bind_Ok.
    apply IH; [rewrite length_insert; lia|].
    intros k x Hk.
    replace (i + 1 + N.of_nat k)%N with (i + N.of_nat (S k))%N by lia.
    apply Hh. lia.
Qed.

Lemma slotwise_apply_slot (func : T -> T -> T) b :
  slotwise (fun i x => y ← vector_index (_sequence b) i; Ok (func x y))
           (apply_slot func b).
Proof.
  intros i s x Hx. unfold apply_slot.
  rewrite (vector_index_Some s i x Hx), result_bind_Ok.
  destruct (vector_index (_sequence b) i) as [y|e]; [|done].
  by rewrite !result_bind_Ok, (vector_assign_Some s i _ x Hx).
Qed.

End ApplyFacts.

Section InsertTheorems.
Context {T : Type} `{Element T}.


End InsertTheorems.

Section ApplyTheorems.
Context {T : Type} `{Element T}.
Implicit Types (c b : SeqContainer T).

(** X6: the conversion to [bool] is [true] exactly when some element
    converts to [true]; an empty container converts to [false]. *)
Theorem op_bool_any c :
  op_bool c = Ok (existsb to_bool (_sequence c)) /\
  (op_bool c = Ok true <->
   exists i x, _sequence c !! i = Some x /\ to_bool x = true) /\
  op_bool (SeqContainer_default (T := T)) = Ok false.
Proof.
  assert (op_bool c = Ok (existsb to_bool (_sequence c))) as Hbool.
  { unfold op_bool, size. by rewrite bool_loop_spec by (simpl; lia). }
  split; [done|]. split; [|done].
  rewrite Hbool. split.
  - intros [= Hex]. apply existsb_exists in Hex as (x & Hin & Hx).
    apply list_elem_of_In, list_elem_of_lookup in Hin as [i Hi]. eauto.
  - intros (i & x & Hi & Hx). f_equal. apply existsb_exists.
    exists x. split; [|done].
    apply list_elem_of_In, list_elem_of_lookup. eauto.
Qed.

(** X7: the unary [apply(func)] replaces every element by its image and
    keeps the size. *)
Theorem apply_unary_maps (func : T -> T) c :
  exists c',
    apply_unary func c = Ok c' /\
    _sequence c' = func <$> _sequence c /\
    size c' = size c.
Proof.
  eexists. split; [apply apply_unary_spec|]. split; [done|].
  unfold size. simpl. by rewrite length_fmap.
Qed.

(** X8: the binary [apply(b, func)] returns exactly when [b] is at least
    as long as the receiver.  Then slot [i < b.size()] holds
    [func(this[i], b[i])], the receiver read with zero fill, and a shorter
    receiver ends one slot longer than [b]. *)
Theorem apply_binary_longer (func : T -> T -> T) c b :
  (size b < Int.SIZE_MAX)%N ->
  (is_Ok (apply_binary func c b) <-> (size c <= size b)%N) /\
  forall c', apply_binary func c b = Ok c' ->
    size c' = (if (size c <? size b)%N then size b + 1 else size c)%N /\
    forall i, (i < size b)%N ->
      exists x y,
        op_index_const c i = Ok x /\ _sequence b !! N.to_nat i = Some y /\
        op_index_const c' i = Ok (func x y).
Proof.
  intros Hmax.
  destruct (compound_storage c b Hmax) as [Hlen Hread].
  assert (forall c', apply_binary func c b = Ok c' ->
            (size c <= size b)%N /\
            size c' = (if (size c <? size b)%N then size b + 1 else size c)%N /\
            forall i, (i < size b)%N ->
              exists x y,
                op_index_const c i = Ok x /\ _sequence b !! N.to_nat i = Some y /\
                op_index_const c' i = Ok (func x y)) as Hrun.
  { intros c' Hc'.
    assert (size c <= size b)%N as Hle.
    { destruct (N.le_gt_cases (size c) (size b)) as [|Hgt]; [done|].
      by rewrite apply_binary_shorter in Hc' by lia. }
    split; [done|].
    unfold apply_binary in Hc'.
    set (limit := max_val (size c) (size b)) in *.
    set (c1 := if (size c <? limit)%N then _ else _) in *.
    assert (limit = size b) as Hlimit by (unfold limit, max_val; lia).
    destruct (for_range _ _ _) as [s|] eqn:Hloop; [|done].
    injection Hc' as <-. unfold for_range in Hloop.
    apply (for_loop_slotwise _ _ (slotwise_apply_slot func b)) in Hloop;
      [|simpl; lia].
    destruct Hloop as (Hlen' & _ & Hin). split.
    - rewrite size_mk_seq, Hlen'. unfold c1. rewrite Hlimit.
      destruct (N.ltb_spec (size c) (size b)) as [Hlt|Hge].
      + rewrite IntFacts.sz_add_small by lia.
        by rewrite <- size_resize with (c := c).
      + done.
    - intros i Hi.
      destruct (lookup_lt_is_Some_2 (_sequence c1) (N.to_nat i)) as [x Hx]; [lia|].
      destruct (Hin (N.to_nat i) x) as (v & Hv & Hs); [lia|done|].
      simpl in Hv, Hs. rewrite N2Nat.id, N.add_0_l in Hv.
      unfold vector_index in Hv.
      destruct (_sequence b !! N.to_nat i) as [y|] eqn:Hy; [|done].
      injection Hv as <-. exists x, y.
      split; [by rewrite <- Hread, op_index_const_spec, Hx|].
      split; [done|].
      by rewrite op_index_const_mk_seq, Hs. }
  split; [split|].
  - intros [c' Hc']. by destruct (Hrun c' Hc').
  - intros Hle. unfold apply_binary.
    set (limit := max_val (size c) (size b)) in *.
    assert (limit = size b) as Hlimit by (unfold limit, max_val; lia).
    destruct (for_loop_slotwise_ok _ _ (slotwise_apply_slot func b)
                (N.to_nat limit) 0%N
                (_sequence (if (size c <? limit)%N
                            then resize (Int.sz_add limit 1) c else c)))
      as [s Hs]; [simpl; lia| |].
    + intros k x Hk. simpl.
      destruct (lookup_lt_is_Some_2 (_sequence b) k) as [y Hy];
        [unfold size in *; lia|].
      exists (func x y). unfold vector_index.
      by rewrite N.add_0_l, Nat2N.id, Hy.
    + unfold for_range. rewrite Hs. by eexists.
  - intros c' Hc'. by destruct (Hrun c' Hc') as (_ & ? & ?).
Qed.

(** X9: a compound assignment from a container that returns leaves, in
    every slot below [max(size(), b.size())], [this[i] op b[i]] of the two
    operands read with zero fill; it never shrinks the receiver, and a
    receiver that was shorter than [b] ends one slot longer than [b].  It
    returns whenever the element operator never fails. *)
Theorem compound_assign_elementwise (op : T -> T -> result T) c b :
  (size b < Int.SIZE_MAX)%N ->
  ((forall x y, is_Ok (op x y)) -> is_Ok (compound_assign op c b)) /\
  forall c', compound_assign op c b = Ok c' ->
    size c' = (if (size c <? size b)%N then size b + 1 else size c)%N /\
    (size c <= size c')%N /\
    forall i, (i < N.max (size c) (size b))%N ->
      exists x y v,
        op_index_const c i = Ok x /\ op_index_const b i = Ok y /\
        op x y = Ok v /\ op_index_const c' i = Ok v.
Proof.
  intros Hmax. split; [by apply compound_assign_total|].
  intros c' Hrun.
  pose proof (compound_assign_size op c b c' Hmax Hrun) as Hsize.
  split; [done|]. split.
  - rewrite Hsize. destruct (N.ltb_spec (size c) (size b)); lia.
  - by apply compound_assign_elements.
Qed.

End ApplyTheorems.

(** ** Elements of type [intmax_t] *)

Section IntmaxTheorems.
Import Intmax.

(** X10: [m /= n] and [m %= n] with [n] shorter than [m] never return: at
    the first index past [n] the zero-filled read of [n] is the divisor. *)
Theorem divide_by_shorter_container (c b : SeqContainer intmax_t) :
  (size b < size c)%N -> (size b < Int.SIZE_MAX)%N ->
  (exists e, op_div_assign c b = Err e) /\
  (exists e, op_mod_assign c b = Err e).
Proof.
  intros Hlt Hmax. unfold intmax_t in *.
  assert (forall f, (forall x, f x 0%Z = Err division_by_zero) ->
            exists e, compound_assign f c b = Err e) as Hfail.
  { intros f Hf. destruct (compound_assign f c b) as [c'|e] eqn:Hrun;
      [|by eexists].
    destruct (compound_assign_elements f c b c' Hmax Hrun (size b))
      as (x & y & v & _ & Hy & Hv & _); [unfold max_val; lia|].
    rewrite op_index_const_ge in Hy by lia. injection Hy as <-.
    unfold def_value in Hv. simpl in Hv. by rewrite Hf in Hv. }
  split; apply Hfail; intros x; reflexivity.
Qed.

(** X11: for [intmax_t] elements, every overload of the catalogue that is
    well-formed for a built-in element type computes the element operator
    its struct is named after, unless the struct is [Mod_Op] and the
    divisor is zero.  The overloads left out are the two that assign to
    their [T const&] parameter, the third overload of [LeftShift_Op] and of
    [RightShift_Op]: they do not instantiate for [intmax_t]. *)
Theorem catalogue_overloads_agree
    (op : BinaryOp) (o : overload) (a b : intmax_t) :
  (assigns_to_const op o = true <->
   (op = LeftShift_Op \/ op = RightShift_Op) /\ o = const_rvalue) /\
  (assigns_to_const op o = false ->
   (op = Mod_Op -> b <> 0%Z) ->
   apply_op op o a b = element_op op a b).
Proof.
  split.
  - split.
    + destruct op, o; try discriminate; intros _; auto.
    + intros [[-> | ->] ->]; reflexivity.
  - intros Hbuilds Hmod.
    destruct op; try (by apply CatalogueFacts.overloads_agree).
    + apply CatalogueFacts.Mod_Op_nonzero. by apply Hmod.
    + apply CatalogueFacts.LeftShift_Op_other. by intros ->.
Qed.

End IntmaxTheorems.

(** ** Where rotations move the elements *)

Section RotationMoreFacts.
Context {T : Type} `{Element T}.
Implicit Types (c : SeqContainer T).

(** The number of places of a rotation, as an integer remainder. *)
Lemma places_Z (z : Z) c :
  (0 < size c)%N -> (0 <= z < 2 ^ 64)%Z ->
  Z.of_nat (N.to_nat (Int.to_size_t z mod size c))
  = (z mod Z.of_nat (length (_sequence c)))%Z.
Proof.
  intros Hpos Hz. rewrite IntFacts.to_size_t_small by done.
  unfold size in *. rewrite N_nat_Z, N2Z.inj_mod, Z2N.id by lia.
  by rewrite nat_N_Z.
Qed.

Lemma length_cshift (k : Z) c :
  length (_sequence (cshift k c)) = length (_sequence c).
Proof.
  assert (size (cshift k c) = size c) as Hsz.
  { unfold cshift. destruct (0 <? k)%Z;
      [apply size_rotate_left|apply size_rotate_right]. }
  unfold size in Hsz. lia.
Qed.

(** Slot [i] after [cshift(k)] holds what was in slot [(i - k) mod L]. *)
Lemma cshift_lookup (k : Z) c (i : nat) :
  (0 < size c)%N -> (Int.INT_MIN < k <= Int.INT_MAX)%Z ->
  i < length (_sequence c) ->
  _sequence (cshift k c) !! i
  = _sequence c !! Z.to_nat ((Z.of_nat i - k) mod Z.of_nat (length (_sequence c))).
Proof.
  intros Hpos Hk Hi. set (n := length (_sequence c)) in *.
  assert (0 < Z.of_nat n)%Z as Hn by lia.
  unfold Int.INT_MIN, Int.INT_MAX in Hk.
  destruct (Z.ltb_spec 0 k) as [Hk0|Hk0].
  - rewrite cshift_pos, rotate_left_nonempty by done. fold n. simpl.
    pose proof (places_Z k c Hpos ltac:(lia)) as Hd. fold n in Hd.
    set (d := N.to_nat _) in *.
    pose proof (Z.mod_pos_bound k (Z.of_nat n) Hn) as HD.
    rewrite <- (Zminus_mod_idemp_r (Z.of_nat i) k), <- Hd.
    destruct (decide (i < d)) as [Hlt|Hge].
    + rewrite lookup_app_l by (rewrite length_drop; lia).
      rewrite lookup_drop. f_equal.
      rewrite <- (Z_mod_plus_full _ 1), Z.mod_small by lia. lia.
    + rewrite lookup_app_r by (rewrite length_drop; lia).
      rewrite length_drop, lookup_take_lt by lia. f_equal.
      rewrite Z.mod_small by lia. lia.
  - rewrite cshift_nonpos, IntFacts.std_abs_small by (done || (unfold Int.INT_MIN, Int.INT_MAX; lia)).
    rewrite rotate_right_nonempty by done. simpl.
    pose proof (places_Z (Z.abs k) c Hpos ltac:(lia)) as Hd. fold n in Hd.
    set (d := N.to_nat _) in *.
    pose proof (Z.mod_pos_bound (Z.abs k) (Z.of_nat n) Hn) as HD.
    replace (Z.of_nat i - k)%Z with (Z.of_nat i + Z.abs k)%Z by lia.
    rewrite <- (Zplus_mod_idemp_r (Z.abs k)), <- Hd.
    destruct (decide (i < n - d)) as [Hlt|Hge].
    + rewrite lookup_app_l by (rewrite length_drop; lia).
      rewrite lookup_drop. f_equal.
      rewrite Z.mod_small by lia. lia.
    + rewrite lookup_app_r by (rewrite length_drop; lia).
      rewrite length_drop, lookup_take_lt by lia. f_equal.
      rewrite <- (Z_mod_plus_full _ (-1)), Z.mod_small by lia. lia.
Qed.

Lemma cshift_empty (k : Z) c : size c = 0%N -> cshift k c = c.
Proof.
  intros Hz. unfold cshift.
  destruct (0 <? k)%Z; [by apply rotate_empty_l|by apply rotate_empty_r].
Qed.

(** Two containers with the same slots are the same container. *)
Lemma container_eq c1 c2 :
  (forall i, _sequence c1 !! i = _sequence c2 !! i) -> c1 = c2.
Proof.
  destruct c1 as [s1], c2 as [s2]. simpl. intros Heq. f_equal.
  by apply list_eq.
Qed.

End RotationMoreFacts.

Section RotationTheorems.
Context {T : Type} `{Element T}.
Implicit Types (c : SeqContainer T).

(** X12: [cshift(k)] moves the element of slot [i] to slot
    [(i + k) mod L]: a positive [k] moves the elements towards the higher
    indices, the last ones wrapping to the front. *)
Theorem cshift_moves_up (k : Z) c (i : N) :
  (Int.INT_MIN < k <= Int.INT_MAX)%Z -> (i < size c)%N ->
  op_index_const (cshift k c) (Z.to_N ((Z.of_N i + k) mod Z.of_N (size c)))
  = op_index_const c i.
Proof.
  intros Hk Hi. assert (0 < size c)%N as Hpos by lia.
  set (n := length (_sequence c)).
  assert (Z.of_N (size c) = Z.of_nat n) as Hn by (unfold size, n; lia).
  assert (0 < Z.of_nat n)%Z as Hn0 by (unfold size, n in *; lia).
  pose proof (Z.mod_pos_bound (Z.of_N i + k) (Z.of_nat n) Hn0) as Hj.
  rewrite !op_index_const_spec, Hn. f_equal.
  replace (N.to_nat (Z.to_N ((Z.of_N i + k) mod Z.of_nat n)))
    with (Z.to_nat ((Z.of_N i + k) mod Z.of_nat n)) by lia.
  rewrite cshift_lookup by (done || (fold n; lia)). fold n. f_equal.
  rewrite Z2Nat.id by lia.
  rewrite Zminus_mod_idemp_l.
  replace (Z.of_N i + k - k)%Z with (Z.of_N i) by lia.
  rewrite Z.mod_small by (unfold size, n in *; lia).
  by replace (Z.to_nat (Z.of_N i)) with (N.to_nat i) by lia.
Qed.

(** X13: circular shifts compose by adding their amounts. *)
Theorem cshift_cshift (a b : Z) c :
  (Int.INT_MIN < a <= Int.INT_MAX)%Z ->
  (Int.INT_MIN < b <= Int.INT_MAX)%Z ->
  (Int.INT_MIN < a + b <= Int.INT_MAX)%Z ->
  cshift a (cshift b c) = cshift (a + b) c.
Proof.
  intros Ha Hb Hab.
  destruct (N.eq_0_gt_0_cases (size c)) as [Hz|Hpos].
  { by rewrite !cshift_empty by (by rewrite ?cshift_empty). }
  set (n := length (_sequence c)).
  assert (0 < Z.of_nat n)%Z as Hn0 by (unfold size, n in *; lia).
  assert (0 < size (cshift b c))%N as Hpos'.
  { unfold size in *. rewrite length_cshift. lia. }
  apply container_eq. intros i.
  destruct (decide (i < n)) as [Hi|Hi].
  - rewrite cshift_lookup by (done || (rewrite length_cshift; fold n; lia)).
    rewrite length_cshift. fold n.
    pose proof (Z.mod_pos_bound (Z.of_nat i - a) (Z.of_nat n) Hn0) as Hj.
    rewrite cshift_lookup by (done || (fold n; lia)). fold n.
    rewrite cshift_lookup by (done || (fold n; lia)). fold n.
    f_equal. f_equal. rewrite Z2Nat.id by lia.
    rewrite Zminus_mod_idemp_l. f_equal. lia.
  - rewrite !lookup_ge_None_2; [done|rewrite ?length_cshift; fold n; lia..].
Qed.

(** X14: the amount of a shift only counts modulo the length: [cshift]
    by amounts that are congruent modulo [L] gives the same container, and
    both [cshift] and [shift] by a multiple of [L] leave the container as it
    is ([shift] then drops nothing). *)
Theorem shift_amount_modulo_length (a b : Z) c :
  (0 < size c)%N ->
  (Int.INT_MIN < a <= Int.INT_MAX)%Z ->
  (Int.INT_MIN < b <= Int.INT_MAX)%Z ->
  (a mod Z.of_N (size c) = b mod Z.of_N (size c))%Z ->
  cshift a c = cshift b c /\
  ((a mod Z.of_N (size c) = 0)%Z -> cshift a c = c /\ shift a c = Ok c).
Proof.
  intros Hpos Ha Hb Hmod.
  set (n := length (_sequence c)).
  assert (Z.of_N (size c) = Z.of_nat n) as Hn by (unfold size, n; lia).
  assert (0 < Z.of_nat n)%Z as Hn0 by (unfold size, n in *; lia).
  rewrite Hn in *.
  assert (forall k, (Int.INT_MIN < k <= Int.INT_MAX)%Z ->
            (k mod Z.of_nat n = 0)%Z -> cshift k c = c) as Hid.
  { intros k Hk Hk0. apply container_eq. intros i.
    destruct (decide (i < n)) as [Hi|Hi].
    - rewrite cshift_lookup by (done || (fold n; lia)). fold n. f_equal.
      rewrite <- Zminus_mod_idemp_r, Hk0, Z.sub_0_r.
      rewrite Z.mod_small by lia. lia.
    - rewrite !lookup_ge_None_2; [done|rewrite ?length_cshift; fold n; lia..]. }
  split.
  - apply container_eq. intros i.
    destruct (decide (i < n)) as [Hi|Hi].
    + rewrite !cshift_lookup by (done || (fold n; lia)). fold n.
      do 2 f_equal.
      by rewrite <- (Zminus_mod_idemp_r _ a), <- (Zminus_mod_idemp_r _ b), Hmod.
    + rewrite !lookup_ge_None_2; [done|rewrite ?length_cshift; fold n; lia..].
  - intros Ha0. split; [by apply Hid|].
    unfold Int.INT_MIN, Int.INT_MAX in Ha.
    destruct (Z.ltb_spec 0 a) as [Hsign|Hsign].
    + rewrite shift_pos, rotate_left_and_drop_nonempty by done.
      pose proof (places_Z a c Hpos ltac:(lia)) as Hd. fold n in Hd.
      set (d := N.to_nat _) in *.
      assert (d = 0) as -> by lia.
      simpl. rewrite Nat.sub_0_r, take_ge by (fold n; lia).
      by destruct c.
    + rewrite shift_nonpos, IntFacts.std_abs_small
        by (done || (unfold Int.INT_MIN, Int.INT_MAX; lia)).
      rewrite rotate_right_and_drop_nonempty by done.
      pose proof (places_Z (Z.abs a) c Hpos ltac:(lia)) as Hd. fold n in Hd.
      set (d := N.to_nat _) in *.
      assert ((Z.abs a) mod Z.of_nat n = 0)%Z as Habs0.
      { replace (Z.abs a) with (- a)%Z by lia.
        apply Z.mod_opp_l_z; [lia|done]. }
      assert (d = 0) as -> by lia.
      simpl. rewrite drop_0, app_nil_r. by destruct c.
Qed.

End RotationTheorems.

(** ** Reading through expression nodes *)

Section GrowFacts.
Context {T : Type} `{Element T}.
Implicit Types (σ : gmap loc (SeqContainer T)) (M : gset loc)
  (c : SeqContainer T) (x : loc) (b i j : N).

Lemma lookup_grow b M σ x :
  grow b M σ !! x
  = (fun c => if decide (x ∈ M)
              then (if (size c <? b)%N then resize b c else c)
              else c) <$> σ !! x.
Proof. unfold grow, store. rewrite map_lookup_imap. by destruct (σ !! x). Qed.

Lemma resize_reads b c j :
  (size c <= b)%N -> op_index_const (resize b c) j = op_index_const c j.
Proof.
  intros Hle. rewrite resize_grow by done.
  rewrite op_index_const_mk_seq, op_index_const_spec. f_equal.
  destruct (_sequence c !! N.to_nat j) as [v|] eqn:Hv.
  - by rewrite (lookup_app_l_Some _ _ _ _ Hv).
  - apply lookup_ge_None_1 in Hv. rewrite lookup_app_r by done.
    destruct (replicate _ _ !! _) as [y|] eqn:Hy; [|done].
    by apply lookup_replicate in Hy as [-> _].
Qed.

Lemma resize_resize (b1 b2 : N) c :
  (size c <= b1)%N -> (b1 <= b2)%N -> resize b2 (resize b1 c) = resize b2 c.
Proof.
  intros H1 H2. rewrite (resize_grow b2 (resize b1 c)) by (rewrite size_resize; lia).
  rewrite !resize_grow by lia. simpl. f_equal.
  rewrite length_app, length_replicate, <- app_assoc. f_equal.
  rewrite <- replicate_add. f_equal. unfold size in *. lia.
Qed.

Lemma grow_empty b σ : grow b ∅ σ = σ.
Proof.
  unfold store; apply map_eq. intros x. rewrite lookup_grow.
  destruct (σ !! x) as [c|]; [|done]. simpl.
  by destruct (decide (x ∈ (∅ : gset loc))) as [Hin|_]; [set_solver|].
Qed.

Lemma grow_union b M1 M2 σ :
  grow b M2 (grow b M1 σ) = grow b (M1 ∪ M2) σ.
Proof.
  unfold store; apply map_eq. intros x. rewrite !lookup_grow.
  destruct (σ !! x) as [c|]; [|done]. simpl. f_equal.
  destruct (decide (x ∈ M1)) as [H1|H1], (decide (x ∈ M2)) as [H2|H2].
  - rewrite decide_True by (apply elem_of_union; auto).
    destruct (N.ltb_spec (size c) b) as [Hlt|Hge].
    + rewrite size_resize. by destruct (N.ltb_spec b b); [lia|].
    + by destruct (N.ltb_spec (size c) b); [lia|].
  - by rewrite decide_True by (apply elem_of_union; auto).
  - by rewrite decide_True by (apply elem_of_union; auto).
  - by rewrite decide_False by (rewrite elem_of_union; tauto).
Qed.

Lemma grow_grow (b1 b2 : N) M σ :
  (b1 <= b2)%N -> grow b2 M (grow b1 M σ) = grow b2 M σ.
Proof.
  intros Hle. unfold store; apply map_eq. intros x. rewrite !lookup_grow.
  destruct (σ !! x) as [c|]; [|done]. simpl. f_equal.
  destruct (decide (x ∈ M)) as [Hin|Hout]; [|done].
  destruct (N.ltb_spec (size c) b1) as [Hlt|Hge].
  - rewrite size_resize.
    destruct (N.ltb_spec b1 b2) as [Hlt2|Hge2].
    + destruct (N.ltb_spec (size c) b2); [|lia].
      apply resize_resize; lia.
    + assert (b1 = b2) as -> by lia.
      by destruct (N.ltb_spec (size c) b2); [|lia].
  - done.
Qed.

Lemma grow_zero M σ : grow 0 M σ = σ.
Proof.
  unfold store; apply map_eq. intros x. rewrite lookup_grow.
  destruct (σ !! x) as [c|]; [|done]. simpl.
  destruct (decide (x ∈ M)); [|done].
  by destruct (N.ltb_spec (size c) 0); [lia|].
Qed.

(** A container at least [b] long is not touched by [grow b]. *)
Lemma grow_insert b M σ x c :
  (b <= size c)%N -> grow b M (<[x := c]> σ) = <[x := c]> (grow b M σ).
Proof.
  intros Hle. unfold store; apply map_eq. intros y. rewrite lookup_grow.
  destruct (decide (x = y)) as [->|Hne].
  - rewrite !lookup_insert_eq. simpl. f_equal.
    destruct (decide (y ∈ M)); [|done].
    by destruct (N.ltb_spec (size c) b); [lia|].
  - by rewrite !lookup_insert_ne, lookup_grow by done.
Qed.

Lemma deref_grow b M σ x j :
  (deref (grow b M σ) x ≫= fun c => op_index_const c j)
  = (deref σ x ≫= fun c => op_index_const c j).
Proof.
  unfold deref. unfold store. rewrite lookup_grow.
  destruct (σ !! x) as [c|]; [|done]. simpl.
  destruct (decide (x ∈ M)); [|done].
  destruct (N.ltb_spec (size c) b); [|done].
  apply resize_reads. lia.
Qed.

(** The value of an operand at [i] depends on slot [i] of the containers
    only. *)
Lemma expr_value_ext (e : Expr) i σ σ' :
  (forall x, (deref σ x ≫= fun c => op_index_const c i)
             = (deref σ' x ≫= fun c => op_index_const c i)) ->
  expr_value e i σ = expr_value e i σ'.
Proof.
  intros Hslot. induction e as [x|x|l IHl op r IHr]; simpl.
  - apply Hslot.
  - apply Hslot.
  - by rewrite IHl, IHr.
Qed.

Lemma expr_value_grow (e : Expr) i b M σ :
  expr_value e i (grow b M σ) = expr_value e i σ.
Proof. apply expr_value_ext. intros x. apply deref_grow. Qed.

(** Reading an operand: the value, and the mutable operands grown to
    hold the index. *)
Lemma expr_index_value (e : Expr) i :
  (i < Int.SIZE_MAX)%N ->
  forall σ,
    expr_index e i σ
    = v ← expr_value e i σ; Ok (v, grow (i + 1) (mutable_refs e) σ).
Proof.
  intros Hmax. induction e as [x|x|l IHl op r IHr]; intros σ.
  - simpl. rewrite grow_empty.
    destruct (deref σ x) as [c|]; [|done]. simpl.
    by destruct (op_index_const c i).
  - destruct (σ !! x) as [c|] eqn:Hx.
    + cbn [expr_value mutable_refs]. rewrite (deref_Some _ _ _ Hx), result_bind_Ok.
      destruct (N.lt_ge_cases i (size c)) as [Hlt|Hge].
      * rewrite (expr_index_mutable_ref_lt σ x c i Hx Hlt), op_index_const_spec.
        rewrite result_bind_Ok. do 2 f_equal.
        unfold store; apply map_eq. intros y. rewrite lookup_grow.
        destruct (decide (x = y)) as [<-|Hne].
        -- rewrite Hx. simpl. f_equal.
           destruct (decide (x ∈ ({[x]} : gset loc))); [|done].
           by destruct (N.ltb_spec (size c) (i + 1)); [lia|].
        -- destruct (σ !! y) as [c'|]; [|done]. simpl.
           by destruct (decide (y ∈ ({[x]} : gset loc))); [set_solver|].
      * rewrite (expr_index_mutable_ref_ge σ x c i Hx Hge Hmax).
        rewrite op_index_const_ge, result_bind_Ok by done. do 2 f_equal.
        unfold store; apply map_eq. intros y. rewrite lookup_grow.
        destruct (decide (x = y)) as [<-|Hne].
        -- rewrite lookup_insert_eq, Hx. simpl. f_equal.
           destruct (decide (x ∈ ({[x]} : gset loc))); [|set_solver].
           by destruct (N.ltb_spec (size c) (i + 1)); [|lia].
        -- rewrite lookup_insert_ne by done.
           destruct (σ !! y) as [c'|]; [|done]. simpl.
           by destruct (decide (y ∈ ({[x]} : gset loc))); [set_solver|].
    + simpl. unfold deref. unfold store in *. by rewrite Hx.
  - rewrite expr_index_template, IHl. cbn [expr_value mutable_refs].
    destruct (expr_value l i σ) as [a|]; [|done].
    rewrite !result_bind_Ok. cbv beta iota.
    rewrite IHr, expr_value_grow.
    destruct (expr_value r i σ) as [b|]; [|done].
    rewrite !result_bind_Ok. cbv beta iota.
    destruct (apply_op op (overload_of l r) a b) as [v|]; [|done].
    by rewrite !result_bind_Ok, grow_union.
Qed.

End GrowFacts.

(** ** Passes that read an expression node *)

Section FusionFacts.
Context {T : Type} `{Element T}.
Implicit Types (σ : gmap loc (SeqContainer T)) (M : gset loc)
  (c : SeqContainer T) (x this : loc) (i : N) (s : list T).

Lemma for_loop_S {S : Type} (body : N -> S -> result S) (n : nat) (i : N) (st : S) :
  for_loop (Datatypes.S n) i body st = body i st ≫= for_loop n (i + 1) body.
Proof. reflexivity. Qed.

Lemma for_loop_ext {S : Type} (body1 body2 : N -> S -> result S) :
  (forall (i : N) (st : S), body1 i st = body2 i st) ->
  forall (n : nat) (i : N) (st : S),
    for_loop n i body1 st = for_loop n i body2 st.
Proof.
  intros Hext n. induction n as [|n IH]; intros i st; [done|].
  simpl. rewrite Hext. destruct (body2 i st) as [st'|]; [|done].
  simpl. apply IH.
Qed.

Lemma expr_value_during (e : Expr) this M σ c i s :
  σ !! this = Some c ->
  s !! N.to_nat i = _sequence c !! N.to_nat i ->
  expr_value e i (during this M σ i s) = expr_value e i σ.
Proof.
  intros Hthis Hs. apply expr_value_ext. intros x. unfold during.
  destruct (decide (x = this)) as [->|Hne].
  - unfold deref, store. rewrite lookup_insert_eq, Hthis. simpl.
    by rewrite op_index_const_mk_seq, op_index_const_spec, Hs.
  - rewrite <- (deref_grow i M σ x i). unfold deref, store.
    by rewrite lookup_insert_ne.
Qed.

Lemma compound_expr_slot_during (op : T -> T -> result T) (e : Expr)
    this σ c i s :
  σ !! this = Some c -> (i < Int.SIZE_MAX)%N ->
  N.to_nat i < length s ->
  s !! N.to_nat i = _sequence c !! N.to_nat i ->
  compound_expr_slot op this e i (during this (mutable_refs e) σ i s)
  = s1 ← fused_slot op e σ i s;
    Ok (during this (mutable_refs e) σ (i + 1) s1).
Proof.
  intros Hthis Hmax Hlen Hs. unfold compound_expr_slot, fused_slot.
  rewrite expr_index_value by done.
  rewrite (expr_value_during e this _ σ c i s Hthis Hs).
  destruct (expr_value e i σ) as [y|]; [|done].
  rewrite !result_bind_Ok. cbv beta iota.
  assert (grow (i + 1) (mutable_refs e) (during this (mutable_refs e) σ i s)
          = during this (mutable_refs e) σ (i + 1) s) as ->.
  { unfold during, store. rewrite grow_insert by (rewrite size_mk_seq; lia).
    by rewrite grow_grow by lia. }
  assert (deref (during this (mutable_refs e) σ (i + 1) s) this = Ok (mk_seq s))
    as ->.
  { unfold during, deref, store. by rewrite lookup_insert_eq. }
  rewrite result_bind_Ok. simpl.
  destruct (vector_index s i) as [x|]; [|done]. rewrite !result_bind_Ok.
  destruct (op x y) as [v|]; [|done]. rewrite !result_bind_Ok.
  destruct (vector_assign s i v) as [s1|]; [|done]. rewrite !result_bind_Ok.
  f_equal. unfold during, store. by rewrite insert_insert_eq.
Qed.

Lemma fused_slot_Ok (op : T -> T -> result T) (e : Expr) σ i s s1 :
  fused_slot op e σ i s = Ok s1 ->
  exists v, s1 = <[N.to_nat i := v]> s /\ N.to_nat i < length s.
Proof.
  unfold fused_slot, vector_index, vector_assign.
  destruct (expr_value e i σ) as [y|]; [|done]. rewrite result_bind_Ok.
  destruct (s !! N.to_nat i) as [x|] eqn:Hx; [|done]. rewrite result_bind_Ok.
  destruct (op x y) as [v|]; [|done]. rewrite result_bind_Ok.
  intros [= <-]. exists v. split; [done|]. by eapply lookup_lt_Some.
Qed.

Lemma compound_expr_loop (op : T -> T -> result T) (e : Expr) this σ c (n : nat) :
  σ !! this = Some c ->
  forall i s,
    (i + N.of_nat n <= Int.SIZE_MAX)%N ->
    N.to_nat i + n <= length s ->
    (forall j, N.to_nat i <= j -> s !! j = _sequence c !! j) ->
    for_loop n i (compound_expr_slot op this e)
      (during this (mutable_refs e) σ i s)
    = s' ← for_loop n i (fused_slot op e σ) s;
      Ok (during this (mutable_refs e) σ (i + N.of_nat n) s').
Proof.
  intros Hthis. induction n as [|n IH]; intros i s Hmax Hlen Hs.
  - simpl. by rewrite N.add_0_r.
  - cbn [for_loop].
    rewrite (compound_expr_slot_during op e this σ c i s) by (done || lia || (apply Hs; lia)).
    destruct (fused_slot op e σ i s) as [s1|] eqn:Hstep; [|done].
    rewrite !result_bind_Ok.
    destruct (fused_slot_Ok _ _ _ _ _ _ Hstep) as (v & -> & Hi).
    rewrite IH.
    + destruct (for_loop n (i + 1) _ _) as [s'|]; [|done].
      rewrite !result_bind_Ok. do 2 f_equal. lia.
    + lia.
    + rewrite length_insert. lia.
    + intros j Hj. rewrite list_lookup_insert_ne by lia. apply Hs. lia.
Qed.

(** The storage a pass from an operand starts from, and the store it
    leaves: [limit] is [max(size(), re.size())]. *)
Lemma compound_assign_expr_fused (op : T -> T -> result T) (e : Expr)
    this σ c (n : N) :
  σ !! this = Some c -> expr_size e σ = Ok n ->
  (max_val (size c) n < Int.SIZE_MAX)%N ->
  let limit := max_val (size c) n in
  let c1 := if (size c <? limit)%N then resize (limit + 1) c else c in
  compound_assign_expr op this e σ
  = s' ← for_range limit (fused_slot op e σ) (_sequence c1);
    Ok (<[this := mk_seq s']> (grow limit (mutable_refs e) σ)).
Proof.
  intros Hthis Hsize Hmax limit c1. unfold compound_assign_expr.
  rewrite (deref_Some _ _ _ Hthis), Hsize, !result_bind_Ok. fold limit.
  rewrite IntFacts.sz_add_small by lia. fold c1.
  match goal with
  | |- for_range _ _ ?σ1 = _ => assert (σ1 = <[this := c1]> σ) as ->
  end.
  { unfold c1. destruct (size c <? limit)%N; [done|].
    unfold store. by rewrite insert_id. }
  assert (limit <= size c1)%N as Hc1.
  { unfold c1. destruct (N.ltb_spec (size c) limit); [|done].
    rewrite size_resize. lia. }
  assert (<[this := c1]> σ
          = during this (mutable_refs e) (<[this := c1]> σ) 0 (_sequence c1))
    as Hstart.
  { unfold during, store. rewrite grow_zero.
    rewrite insert_insert_eq. by destruct c1. }
  unfold for_range. rewrite Hstart at 1.
  rewrite (compound_expr_loop op e this (<[this := c1]> σ) c1);
    [|by (unfold store; rewrite lookup_insert_eq)|lia
     |unfold size in Hc1; simpl; lia|done].
  assert (forall i s, fused_slot op e (<[this := c1]> σ) i s
                      = fused_slot op e σ i s) as Hbody.
  { intros i s. unfold fused_slot. f_equal. apply expr_value_ext. intros x.
    unfold deref, store.
    destruct (decide (x = this)) as [->|Hne].
    - rewrite lookup_insert_eq, Hthis. simpl. unfold c1.
      destruct (N.ltb_spec (size c) limit); [|done].
      apply resize_reads. lia.
    - by rewrite lookup_insert_ne. }
  rewrite (for_loop_ext _ _ Hbody).
  destruct (for_loop _ _ _ _) as [s'|]; [|done].
  rewrite !result_bind_Ok. f_equal. unfold during, store.
  rewrite N.add_0_l, N2Nat.id, grow_insert by done.
  apply (insert_insert_eq (M := gmap loc)).
Qed.

Lemma slotwise_fused_slot (op : T -> T -> result T) (e : Expr) σ :
  slotwise (fun (i : N) (a : T) => y ← expr_value e i σ; op a y)
    (fused_slot op e σ).
Proof.
  intros i s x Hx. unfold fused_slot.
  destruct (expr_value e i σ) as [y|]; [|done]. rewrite !result_bind_Ok.
  rewrite (vector_index_Some s i x Hx), result_bind_Ok.
  destruct (op x y) as [v|]; [|done].
  by rewrite !result_bind_Ok, (vector_assign_Some s i v x Hx).
Qed.

(** The storage a pass starts from holds [limit] slots, is one longer
    than the operand when the receiver was shorter, and reads as the
    receiver did. *)
Lemma start_storage c (n : N) :
  (max_val (size c) n < Int.SIZE_MAX)%N ->
  let limit := max_val (size c) n in
  let c1 := if (size c <? limit)%N then resize (limit + 1) c else c in
  N.to_nat limit <= length (_sequence c1) /\
  size c1 = (if (size c <? n)%N then n + 1 else size c)%N /\
  forall j : N, op_index_const c1 j = op_index_const c j.
Proof.
  intros Hmax limit c1. unfold c1, limit, max_val in *.
  destruct (N.ltb_spec (size c) (N.max (size c) n)) as [Hlt|Hge].
  - assert (N.max (size c) n = n) as -> by lia.
    destruct (N.ltb_spec (size c) n) as [_|Hbad]; [|lia].
    pose proof (size_resize (n + 1) c) as Hsz.
    split; [unfold size in Hsz; lia|]. split; [done|].
    intros j. apply resize_reads. lia.
  - destruct (N.ltb_spec (size c) n) as [Hbad|_]; [lia|].
    split; [unfold size in *; lia|]. done.
Qed.

Lemma fused_pass (op : T -> T -> result T) (e : Expr) σ (limit : N) s s' :
  N.to_nat limit <= length s ->
  for_range limit (fused_slot op e σ) s = Ok s' ->
  length s' = length s /\
  (forall j : nat, N.to_nat limit <= j -> s' !! j = s !! j) /\
  forall i, (i < limit)%N ->
    exists a y v,
      s !! N.to_nat i = Some a /\ expr_value e i σ = Ok y /\
      op a y = Ok v /\ s' !! N.to_nat i = Some v.
Proof.
  intros Hlen Hrun. unfold for_range in Hrun.
  apply (for_loop_slotwise _ _ (slotwise_fused_slot op e σ)) in Hrun;
    [|simpl; lia].
  destruct Hrun as (Hlen' & Hout & Hin). split; [done|]. split.
  - intros j Hj. apply Hout. right. simpl. lia.
  - intros i Hi.
    destruct (lookup_lt_is_Some_2 s (N.to_nat i)) as [a Ha]; [lia|].
    destruct (Hin (N.to_nat i) a) as (v & Hv & Hs'); [lia|done|].
    simpl in Hv, Hs'. rewrite N2Nat.id, N.add_0_l in Hv.
    destruct (expr_value e i σ) as [y|]; [|done].
    rewrite result_bind_Ok in Hv. by exists a, y, v.
Qed.

Lemma fused_pass_total (op : T -> T -> result T) (e : Expr) σ (limit : N) s :
  N.to_nat limit <= length s ->
  (forall a y, is_Ok (op a y)) ->
  (forall i, (i < limit)%N -> is_Ok (expr_value e i σ)) ->
  is_Ok (for_range limit (fused_slot op e σ) s).
Proof.
  intros Hlen Hop Hval. unfold for_range.
  apply (for_loop_slotwise_ok _ _ (slotwise_fused_slot op e σ)); [simpl; lia|].
  intros k a Hk. rewrite N.add_0_l.
  destruct (Hval (N.of_nat k)) as [y ->]; [lia|].
  rewrite result_bind_Ok. apply Hop.
Qed.

(** A pass that fails on the value of the operand. *)
Lemma fused_pass_value_needed (op : T -> T -> result T) (e : Expr) σ
    (limit : N) s :
  N.to_nat limit <= length s ->
  is_Ok (for_range limit (fused_slot op e σ) s) ->
  forall i, (i < limit)%N -> is_Ok (expr_value e i σ).
Proof.
  intros Hlen [s' Hrun] i Hi.
  destruct (fused_pass op e σ limit s s' Hlen Hrun) as (_ & _ & Hin).
  destruct (Hin i Hi) as (a & y & v & _ & Hy & _). by exists y.
Qed.

(** The plain assignment is the compound one whose element operator
    returns its right operand. *)
Lemma op_assign_expr_compound this (e : Expr) σ :
  op_assign_expr this e σ = compound_assign_expr (fun _ y => Ok y) this e σ.
Proof.
  unfold op_assign_expr, compound_assign_expr.
  destruct (deref σ this) as [c|]; [|done]. rewrite !result_bind_Ok.
  destruct (expr_size e σ) as [n|]; [|done]. rewrite !result_bind_Ok.
  cbv zeta. unfold for_range. apply for_loop_ext. intros i st.
  unfold assign_expr_slot, compound_expr_slot.
  destruct (expr_index e i st) as [[y σ1]|]; [|done].
  rewrite !result_bind_Ok. cbv beta iota.
  destruct (deref σ1 this) as [c0|]; [|done]. rewrite !result_bind_Ok.
  unfold vector_index, vector_assign.
  by destruct (_sequence c0 !! N.to_nat i).
Qed.

(** The loop of the converting constructor. *)
Lemma construct_loop (e : Expr) σ (n : nat) :
  forall i s,
    (i + N.of_nat n <= Int.SIZE_MAX)%N ->
    N.to_nat i + n <= length s ->
    for_loop n i
      (fun i '(c, σ) =>
         '(v, σ') ← expr_index e i σ;
         s ← vector_assign (_sequence c) i v;
         Ok (mk_seq s, σ'))
      (mk_seq s, grow i (mutable_refs e) σ)
    = s' ← for_loop n i (fused_slot (fun _ y => Ok y) e σ) s;
      Ok (mk_seq s', grow (i + N.of_nat n) (mutable_refs e) σ).
Proof.
  induction n as [|n IH]; intros i s Hmax Hlen.
  - simpl. by rewrite N.add_0_r.
  - destruct (lookup_lt_is_Some_2 s (N.to_nat i)) as [a Ha]; [lia|].
    assert (fused_slot (fun _ y => Ok y) e σ i s
            = y ← expr_value e i σ; Ok (<[N.to_nat i := y]> s)) as Hslot.
    { unfold fused_slot. destruct (expr_value e i σ) as [y|]; [|done].
      rewrite !result_bind_Ok.
      by rewrite (vector_index_Some s i a Ha), !result_bind_Ok,
        (vector_assign_Some s i y a Ha). }
    cbn [for_loop]. rewrite Hslot, expr_index_value by lia.
    rewrite expr_value_grow.
    destruct (expr_value e i σ) as [y|]; [|done].
    rewrite !result_bind_Ok. cbv beta iota. rewrite grow_grow by lia.
    cbn [_sequence]. rewrite (vector_assign_Some s i y a Ha).
    rewrite !result_bind_Ok. rewrite IH by (rewrite ?length_insert; lia).
    destruct (for_loop n (i + 1) _ _) as [s'|]; [|done].
    rewrite !result_bind_Ok.
    by replace (i + 1 + N.of_nat n)%N with (i + N.of_nat (S n))%N by lia.
Qed.

Lemma construct_from_fused (e : Expr) σ (n : N) :
  expr_size e σ = Ok n -> (n <= Int.SIZE_MAX)%N ->
  construct_from e σ
  = s' ← for_range n (fused_slot (fun _ y => Ok y) e σ)
           (replicate (N.to_nat n) value_init);
    Ok (mk_seq s', grow n (mutable_refs e) σ).
Proof.
  intros Hsize Hmax. unfold construct_from.
  rewrite Hsize, result_bind_Ok. cbv zeta.
  rewrite length_replicate, N2Nat.id. unfold for_range.
  rewrite <- (grow_zero (mutable_refs e) σ) at 1.
  rewrite construct_loop by (rewrite ?length_replicate; lia).
  by rewrite N.add_0_l, N2Nat.id.
Qed.

(** The outcome of a compound assignment from an operand. *)
Lemma compound_assign_expr_result (op : T -> T -> result T) (e : Expr)
    this σ c (n : N) σ' :
  σ !! this = Some c -> expr_size e σ = Ok n ->
  (max_val (size c) n < Int.SIZE_MAX)%N ->
  compound_assign_expr op this e σ = Ok σ' ->
  exists c',
    σ' = <[this := c']> (grow (max_val (size c) n) (mutable_refs e) σ) /\
    size c' = (if (size c <? n)%N then n + 1 else size c)%N /\
    (forall i, (i < max_val (size c) n)%N ->
       exists a y v,
         op_index_const c i = Ok a /\ expr_value e i σ = Ok y /\
         op a y = Ok v /\ op_index_const c' i = Ok v) /\
    (forall i, (max_val (size c) n <= i)%N ->
       op_index_const c' i = op_index_const c i).
Proof.
  intros Hthis Hsize Hmax Hrun.
  rewrite (compound_assign_expr_fused op e this σ c n Hthis Hsize Hmax) in Hrun.
  destruct (start_storage c n Hmax) as (Hlen & Hsz & Hread).
  cbv zeta in Hrun, Hlen, Hsz, Hread.
  set (limit := max_val (size c) n) in *.
  set (c1 := if (size c <? limit)%N then _ else _) in *.
  destruct (for_range limit _ _) as [s'|] eqn:Hloop; [|done].
  rewrite result_bind_Ok in Hrun. injection Hrun as <-.
  destruct (fused_pass op e σ limit _ s' Hlen Hloop) as (Hlen' & Hout & Hin).
  exists (mk_seq s'). split; [done|]. split; [|split].
  - rewrite <- Hsz. unfold size. simpl. by rewrite Hlen'.
  - intros i Hi. destruct (Hin i Hi) as (a & y & v & Ha & Hy & Hv & Hs').
    exists a, y, v. split; [|split; [done|split; [done|]]].
    + by rewrite <- Hread, op_index_const_spec, Ha.
    + by rewrite op_index_const_mk_seq, Hs'.
  - intros i Hi. rewrite <- Hread, op_index_const_mk_seq, op_index_const_spec.
    rewrite Hout by lia. done.
Qed.

(** ... and when it returns. *)
Lemma compound_assign_expr_returns (op : T -> T -> result T) (e : Expr)
    this σ c (n : N) :
  σ !! this = Some c -> expr_size e σ = Ok n ->
  (max_val (size c) n < Int.SIZE_MAX)%N ->
  (forall a y, is_Ok (op a y)) ->
  (is_Ok (compound_assign_expr op this e σ) <->
   forall i, (i < max_val (size c) n)%N -> is_Ok (expr_value e i σ)).
Proof.
  intros Hthis Hsize Hmax Hop.
  rewrite (compound_assign_expr_fused op e this σ c n Hthis Hsize Hmax).
  destruct (start_storage c n Hmax) as (Hlen & _ & _).
  cbv zeta in Hlen |- *.
  set (limit := max_val (size c) n) in *.
  set (c1 := if (size c <? limit)%N then _ else _) in *.
  split.
  - intros [σ' Hrun]. apply (fused_pass_value_needed op e σ limit _ Hlen).
    destruct (for_range limit _ _) as [s'|]; [by eexists|done].
  - intros Hval.
    destruct (fused_pass_total op e σ limit _ Hlen Hop Hval) as [s' ->].
    rewrite result_bind_Ok. by eexists.
Qed.

End FusionFacts.

Section ExpressionTheorems.
Context {T : Type} `{Element T}.
Implicit Types (σ : gmap loc (SeqContainer T)) (c b : SeqContainer T)
  (this m n x : loc) (i : N).

(** X15: reading an expression node at an index [i] below [SIZE_MAX] gives
    the value obtained by reading every container it names with zero fill
    and combining the elements by the catalogue; it returns exactly when
    that value exists.  The only trace it leaves is that every container
    bound by a mutable reference and shorter than [i + 1] has been resized
    to [i + 1]; the other containers, and all of them when every operand is
    bound by const reference, are as they were. *)
Theorem expr_index_reads_and_grows (e : Expr) i σ :
  (i < Int.SIZE_MAX)%N ->
  (is_Ok (expr_index e i σ) <-> is_Ok (expr_value e i σ)) /\
  forall v σ', expr_index e i σ = Ok (v, σ') ->
    expr_value e i σ = Ok v /\
    (forall x, x ∉ mutable_refs e -> σ' !! x = σ !! x) /\
    (forall x c, x ∈ mutable_refs e -> σ !! x = Some c ->
       σ' !! x = Some (if (size c <? i + 1)%N then resize (i + 1) c else c)) /\
    (mutable_refs e = ∅ -> σ' = σ).
Proof.
  intros Hmax. rewrite (expr_index_value e i Hmax σ). split.
  - split.
    + intros [[v σ'] Hrun]. destruct (expr_value e i σ) as [y|]; [|done].
      by exists y.
    + intros [y ->]. rewrite result_bind_Ok. by eexists.
  - intros v σ' Hrun. destruct (expr_value e i σ) as [y|]; [|done].
    rewrite result_bind_Ok in Hrun. injection Hrun as <- <-.
    split; [done|]. split; [|split].
    + intros x Hx. etrans; [apply lookup_grow|].
      destruct (σ !! x) as [c|]; [|done].
      simpl. by rewrite decide_False by done.
    + intros x c Hx Hc. etrans; [apply lookup_grow|]. rewrite Hc. simpl.
      by rewrite decide_True by done.
    + intros ->. apply grow_empty.
Qed.

(** X16: a compound assignment [m op= e] from an expression node.  With
    [limit = max(m.size(), e.size())] below [SIZE_MAX], and an element
    operator that never fails, it returns exactly when [e] has a value at
    every index below [limit].  Then slot [i < limit] of [m] holds
    [m[i] op e[i]], [e[i]] being the value of [e] in the store before
    the call, even where [e] names [m] itself; the slots from [limit] on
    read as before; [m] ends one slot longer than [e] when it was shorter;
    and the mutable operands of [e] have been grown to [limit]. *)
Theorem compound_assign_expr_elementwise (op : T -> T -> result T) (e : Expr)
    this σ c (n : N) :
  σ !! this = Some c -> expr_size e σ = Ok n ->
  (N.max (size c) n < Int.SIZE_MAX)%N ->
  ((forall a y, is_Ok (op a y)) ->
   (is_Ok (compound_assign_expr op this e σ) <->
    forall i, (i < N.max (size c) n)%N -> is_Ok (expr_value e i σ))) /\
  forall σ', compound_assign_expr op this e σ = Ok σ' ->
    exists c',
      σ' = <[this := c']> (grow (N.max (size c) n) (mutable_refs e) σ) /\
      size c' = (if (size c <? n)%N then n + 1 else size c)%N /\
      (forall i, (i < N.max (size c) n)%N ->
         exists a y v,
           op_index_const c i = Ok a /\ expr_value e i σ = Ok y /\
           op a y = Ok v /\ op_index_const c' i = Ok v) /\
      (forall i, (N.max (size c) n <= i)%N ->
         op_index_const c' i = op_index_const c i).
Proof.
  intros Hthis Hsize Hmax. split.
  - intros Hop. by apply (compound_assign_expr_returns op e this σ c n).
  - intros σ' Hrun.
    by apply (compound_assign_expr_result op e this σ c n σ').
Qed.

(** X17: [m op= n] with a container [n] that is not const selects the
    template overload, which reads [n] through its mutable subscript.  It
    computes what the overload on [const SeqContainer&] computes, for [n]
    the same container as [m] too, and besides resizes a shorter [n] to
    [m.size()]. *)
Theorem compound_assign_container_operand (op : T -> T -> result T)
    this n σ c b :
  σ !! this = Some c -> σ !! n = Some b ->
  (N.max (size c) (size b) < Int.SIZE_MAX)%N ->
  compound_assign_expr op this (mutable_ref n) σ
  = (c' ← compound_assign op c b;
     Ok (<[this := c']> (grow (N.max (size c) (size b)) {[n]} σ))) /\
  (n <> this -> (size b < size c)%N ->
   forall σ', compound_assign_expr op this (mutable_ref n) σ = Ok σ' ->
     σ' !! n = Some (resize (size c) b)).
Proof.
  intros Hthis Hn Hmax.
  assert (expr_size (mutable_ref n) σ = Ok (size b)) as Hsize.
  { simpl. by rewrite (deref_Some _ _ _ Hn). }
  assert (compound_assign_expr op this (mutable_ref n) σ
          = (c' ← compound_assign op c b;
             Ok (<[this := c']> (grow (N.max (size c) (size b)) {[n]} σ))))
    as Heq.
  { rewrite (compound_assign_expr_fused op _ this σ c (size b) Hthis Hsize Hmax).
    cbv zeta. unfold compound_assign.
    rewrite IntFacts.sz_add_small by (unfold max_val in *; lia).
    unfold for_range.
    rewrite (for_loop_ext (fused_slot op (mutable_ref n) σ) (compound_slot op b)).
    - by destruct (for_loop _ _ _ _).
    - intros i st. unfold fused_slot, compound_slot. simpl.
      by rewrite (deref_Some _ _ _ Hn), result_bind_Ok. }
  split; [done|].
  intros Hne Hlt σ' Hrun. rewrite Heq in Hrun.
  destruct (compound_assign op c b) as [c'|]; [|done].
  rewrite result_bind_Ok in Hrun. injection Hrun as <-.
  unfold store. rewrite lookup_insert_ne by done.
  etrans; [apply lookup_grow|]. rewrite Hn. simpl.
  rewrite decide_True by (by apply elem_of_singleton).
  replace (N.max (size c) (size b)) with (size c) by lia.
  by destruct (N.ltb_spec (size b) (size c)); [|lia].
Qed.

(** X18: the assignment [m = e] from an expression node never shrinks
    [m].  With [limit = max(m.size(), e.size())] below [SIZE_MAX] it returns
    exactly when [e] has a value at every index below [limit]; slot
    [i < limit] of [m] then holds that value, which past the end of [e]'s
    containers is computed from zeros; an [m] that was shorter than [e]
    ends with [e.size() + 1] elements, the last one zero. *)
Theorem op_assign_expr_elements (e : Expr) this σ c (n : N) :
  σ !! this = Some c -> expr_size e σ = Ok n ->
  (N.max (size c) n < Int.SIZE_MAX)%N ->
  (is_Ok (op_assign_expr this e σ) <->
   forall i, (i < N.max (size c) n)%N -> is_Ok (expr_value e i σ)) /\
  forall σ', op_assign_expr this e σ = Ok σ' ->
    exists c',
      σ' = <[this := c']> (grow (N.max (size c) n) (mutable_refs e) σ) /\
      size c' = (if (size c <? n)%N then n + 1 else size c)%N /\
      (size c <= size c')%N /\
      (forall i, (i < N.max (size c) n)%N ->
         op_index_const c' i = expr_value e i σ) /\
      ((size c < n)%N -> op_index_const c' n = Ok def_value).
Proof.
  intros Hthis Hsize Hmax. rewrite op_assign_expr_compound. split.
  - apply (compound_assign_expr_returns _ e this σ c n); try done.
    intros a y. by exists y.
  - intros σ' Hrun.
    destruct (compound_assign_expr_result _ e this σ c n σ' Hthis Hsize Hmax Hrun)
      as (c' & Hσ' & Hsz & Hin & Hout).
    exists c'. split; [done|]. split; [done|]. split; [|split].
    + rewrite Hsz. destruct (N.ltb_spec (size c) n); lia.
    + intros i Hi. destruct (Hin i Hi) as (a & y & v & _ & Hy & Hv & Hc').
      injection Hv as <-. by rewrite Hy.
    + intros Hlt. rewrite Hout by (unfold max_val; lia).
      apply op_index_const_ge. lia.
Qed.

(** X19: the converting constructor [SeqContainer(expr)] builds a
    container of [expr.size()] elements, element [i] being the value of
    [expr] at [i]; it returns exactly when these values exist, and leaves
    the mutable operands of [expr] grown to [expr.size()]. *)
Theorem construct_from_elements (e : Expr) σ (n : N) :
  expr_size e σ = Ok n -> (n <= Int.SIZE_MAX)%N ->
  (is_Ok (construct_from e σ) <->
   forall i, (i < n)%N -> is_Ok (expr_value e i σ)) /\
  forall c' σ', construct_from e σ = Ok (c', σ') ->
    size c' = n /\
    σ' = grow n (mutable_refs e) σ /\
    forall i, (i < n)%N -> op_index_const c' i = expr_value e i σ.
Proof.
  intros Hsize Hmax. rewrite (construct_from_fused e σ n Hsize Hmax).
  assert (N.to_nat n <= length (replicate (N.to_nat n) (value_init (T := T))))
    as Hlen by (by rewrite length_replicate).
  split; [split|].
  - intros [cσ Hrun].
    apply (fused_pass_value_needed (fun _ y => Ok y) e σ n _ Hlen).
    destruct (for_range n _ _) as [s'|]; [by eexists|done].
  - intros Hval.
    destruct (fused_pass_total (fun _ y => Ok y) e σ n _ Hlen) as [s' ->];
      [by intros a y; exists y|done|].
    rewrite result_bind_Ok. by eexists.
  - intros c' σ' Hrun.
    destruct (for_range n _ _) as [s'|] eqn:Hloop; [|done].
    rewrite result_bind_Ok in Hrun. injection Hrun as <- <-.
    destruct (fused_pass _ e σ n _ s' Hlen Hloop) as (Hlen' & _ & Hin).
    split; [|split; [done|]].
    + unfold size. simpl. rewrite Hlen', length_replicate. lia.
    + intros i Hi. destruct (Hin i Hi) as (a & y & v & _ & Hy & Hv & Hs').
      injection Hv as <-. by rewrite op_index_const_mk_seq, Hs', Hy.
Qed.

(** X20: a container built from [m op r] has the size of [m] whenever
    [m] is not empty, whatever the size of [r]: what a longer [r] holds
    from [m.size()] on is dropped, and a shorter [r] is read with zero
    fill.  Only from an empty [m] does the result take the size of [r]. *)
Theorem construct_from_truncates (op : BinaryOp) m (r : Expr) σ cm (nr : N) :
  σ !! m = Some cm -> expr_size r σ = Ok nr ->
  (size cm <= Int.SIZE_MAX)%N -> (nr <= Int.SIZE_MAX)%N ->
  forall c' σ', construct_from (container_op op m r) σ = Ok (c', σ') ->
    size c' = (if (size cm =? 0)%N then nr else size cm) /\
    (forall i, (i < size c')%N ->
       exists a y v,
         op_index_const cm i = Ok a /\ expr_value r i σ = Ok y /\
         apply_op op (overload_of (const_ref m) r) a y = Ok v /\
         op_index_const c' i = Ok v) /\
    (forall i, (size c' <= i)%N -> op_index_const c' i = Ok def_value).
Proof.
  intros Hm Hr Hcm Hnr c' σ' Hrun.
  set (n := if (size cm =? 0)%N then nr else size cm).
  assert (expr_size (container_op op m r) σ = Ok n) as Hsize.
  { unfold container_op, n. cbn [expr_size].
    rewrite (deref_Some _ _ _ Hm), !result_bind_Ok.
    by destruct (size cm =? 0)%N. }
  assert (n <= Int.SIZE_MAX)%N as Hmax
    by (unfold n; destruct (size cm =? 0)%N; lia).
  rewrite (construct_from_fused _ σ n Hsize Hmax) in Hrun.
  assert (N.to_nat n <= length (replicate (N.to_nat n) (value_init (T := T))))
    as Hlen by (by rewrite length_replicate).
  destruct (for_range n _ _) as [s'|] eqn:Hloop; [|done].
  rewrite result_bind_Ok in Hrun. injection Hrun as <- <-.
  destruct (fused_pass _ _ σ n _ s' Hlen Hloop) as (Hlen' & _ & Hin).
  assert (size (mk_seq s') = n) as Hsz.
  { unfold size. simpl. rewrite Hlen', length_replicate. lia. }
  rewrite Hsz. split; [done|]. split.
  - intros i Hi. destruct (Hin i Hi) as (a0 & y & v & _ & Hy & Hv & Hs').
    injection Hv as <-. unfold container_op in Hy. cbn [expr_value] in Hy.
    rewrite (deref_Some _ _ _ Hm), result_bind_Ok in Hy.
    destruct (op_index_const cm i) as [a|] eqn:Ha; [|done].
    rewrite result_bind_Ok in Hy.
    destruct (expr_value r i σ) as [b0|]; [|done].
    rewrite result_bind_Ok in Hy.
    exists a, b0, y. split; [done|]. split; [done|]. split; [done|].
    by rewrite op_index_const_mk_seq, Hs'.
  - intros i Hi. apply op_index_const_ge. by rewrite Hsz.
Qed.

End ExpressionTheorems.

(** ** Linear shifts and the stream operator *)

Section StreamFacts.
Context {T : Type} `{Element T}.
Variable show : T -> list ascii.

(** The loop of the stream operator from the element [v] on: every
    element but the last is followed by a comma, the last by the closing
    parenthesis. *)
Lemma stream_loop (a : SeqContainer T) :
  (size a <= Int.SIZE_MAX)%N ->
  forall (rest pre : list T) (v : T) (os : list ascii),
    _sequence a = pre ++ v :: rest ->
    for_loop (S (length rest)) (N.of_nat (length pre)) (stream_slot show a) os
    = Ok (os ++ show v
             ++ foldr (fun w acc => ","%char :: show w ++ acc) [")"%char] rest).
Proof.
  intros Hmax rest. induction rest as [|w rest IH]; intros pre v os Hseq.
  - assert (size a = N.of_nat (length pre) + 1)%N as Hsz.
    { unfold size. rewrite Hseq, length_app. simpl. lia. }
    cbn [for_loop length foldr]. unfold stream_slot.
    rewrite op_index_const_spec, Nat2N.id, Hseq, list_lookup_middle by done.
    simpl. rewrite IntFacts.sz_add_small by lia.
    by rewrite Hsz, N.eqb_refl.
  - assert (size a = N.of_nat (length pre) + 1 + N.of_nat (S (length rest)))%N
      as Hsz.
    { unfold size. rewrite Hseq, length_app. simpl. lia. }
    assert (stream_slot show a (N.of_nat (length pre)) os
            = Ok (os ++ show v ++ [","%char])) as Hstep.
    { unfold stream_slot.
      rewrite op_index_const_spec, Nat2N.id, Hseq, list_lookup_middle by done.
      simpl. rewrite IntFacts.sz_add_small by lia.
      by destruct (N.eqb_spec (N.of_nat (length pre) + 1) (size a)); [lia|]. }
    rewrite for_loop_S, Hstep, result_bind_Ok.
    change (length (w :: rest)) with (S (length rest)).
    replace (N.of_nat (length pre) + 1)%N with (N.of_nat (length (pre ++ [v])))
      by (rewrite length_app; simpl; lia).
    rewrite (IH (pre ++ [v]) w) by (by rewrite <- app_assoc).
    cbn [foldr]. f_equal. by rewrite <- !app_assoc.
Qed.

End StreamFacts.

Section StreamTheorems.
Context {T : Type} `{Element T}.
Implicit Types (c : SeqContainer T).

(** X21: [shift(k)] moves the elements by [|k| mod L] places, not by
    [|k|]: for a positive [k] the first [L - d] elements move up behind
    [d] zeros, otherwise the last [L - d] elements move down in front of
    [d] zeros, where [d = |k| mod L].  A shift by [L] places or more
    therefore does not clear the container. *)
Theorem shift_moves_and_zero_fills (k : Z) c :
  (0 < size c)%N -> (Int.INT_MIN < k <= Int.INT_MAX)%Z ->
  let L := length (_sequence c) in
  let d := Z.to_nat (Z.abs k mod Z.of_nat L) in
  shift k c
  = Ok (mk_seq (if (0 <? k)%Z
                then replicate d value_init ++ take (L - d) (_sequence c)
                else drop d (_sequence c) ++ replicate d value_init)).
Proof.
  intros Hpos Hk L d. unfold Int.INT_MIN, Int.INT_MAX in Hk.
  destruct (Z.ltb_spec 0 k) as [Hk0|Hk0].
  - rewrite shift_pos, rotate_left_and_drop_nonempty by done. cbv zeta.
    pose proof (places_Z k c Hpos ltac:(lia)) as Hd. fold L in Hd.
    set (d' := N.to_nat _) in *.
    assert (d' = d) as -> by (unfold d; rewrite Z.abs_eq by lia; lia).
    done.
  - rewrite shift_nonpos, IntFacts.std_abs_small
      by (done || (unfold Int.INT_MIN, Int.INT_MAX; lia)).
    rewrite rotate_right_and_drop_nonempty by done. cbv zeta.
    pose proof (places_Z (Z.abs k) c Hpos ltac:(lia)) as Hd. fold L in Hd.
    set (d' := N.to_nat _) in *.
    assert (d' = d) as -> by (unfold d; lia).
    done.
Qed.

(** X22: the stream operator writes nothing for an empty container, and
    for the others an opening parenthesis, the elements in order with a
    comma between two of them, and a closing parenthesis. *)
Theorem stream_format (show : T -> list ascii) (os : list ascii)
    (x : T) (s : list T) :
  (size (mk_seq (x :: s)) <= Int.SIZE_MAX)%N ->
  op_stream show os (mk_seq (x :: s))
  = Ok (os ++ "("%char :: show x
           ++ foldr (fun w acc => ","%char :: show w ++ acc) [")"%char] s) /\
  op_stream show os SeqContainer_default = Ok os.
Proof.
  intros Hmax. split; [|done].
  unfold op_stream. rewrite size_mk_seq. cbn [length].
  destruct (N.ltb_spec 0 (N.of_nat (S (length s)))) as [_|Hz]; [|lia].
  unfold for_range. rewrite Nat2N.id.
  rewrite (stream_loop show (mk_seq (x :: s)) Hmax s [] x) by done.
  f_equal. by rewrite <- app_assoc.
Qed.

End StreamTheorems.

(** ** The further properties at concrete containers *)

Section MoreWitnesses.
Import Intmax.

(** [c[4] = 7] on [(1,2)]. *)
Lemma write_then_read_witness :
  exists c' : SeqContainer intmax_t,
    write (mk_seq [1; 2]%Z) 4 7%Z = Ok c' /\
    size c' = 5%N /\
    op_index_const c' 4 = Ok 7%Z.
Proof.
  destruct (write_then_read (T := intmax_t) (mk_seq [1; 2]%Z) 4 7%Z)
    as (c' & Hwrite & Hsize & Hread & _); [reflexivity|].
  exists c'. split; [exact Hwrite|]. split; [exact Hsize|exact Hread].
Defined.

(** [c[-1] = 5] on [(1)]. *)
Lemma write_at_last_index_leaves_storage_witness :
  write (T := intmax_t) (mk_seq [1%Z]) Int.SIZE_MAX 5%Z = Err out_of_range.
Proof.
  destruct (write_at_last_index_leaves_storage (T := intmax_t) (mk_seq [1%Z]) 5%Z)
    as (_ & _ & Hwrite); [vm_compute; discriminate|].
  exact Hwrite.
Defined.


(** [apply] with [(1,2)] as receiver and [(10,20,30)] as [b], and the other
    way round. *)
Lemma apply_binary_longer_witness :
  is_Ok (apply_binary (T := intmax_t) Z.add (mk_seq [1; 2]%Z) (mk_seq [10; 20; 30]%Z)) /\
  ~ is_Ok (apply_binary (T := intmax_t) Z.add (mk_seq [10; 20; 30]%Z) (mk_seq [1; 2]%Z)).
Proof.
  split.
  - destruct (apply_binary_longer (T := intmax_t) Z.add
                (mk_seq [1; 2]%Z) (mk_seq [10; 20; 30]%Z)) as [Hiff _];
      [reflexivity|].
    apply Hiff. vm_compute. discriminate.
  - destruct (apply_binary_longer (T := intmax_t) Z.add
                (mk_seq [10; 20; 30]%Z) (mk_seq [1; 2]%Z)) as [Hiff _];
      [reflexivity|].
    intros Hok. apply Hiff in Hok. vm_compute in Hok. by apply Hok.
Defined.

(** [(1,2) += (10,20,30)]. *)
Lemma compound_assign_elementwise_witness :
  exists c' : SeqContainer intmax_t,
    op_add_assign (mk_seq [1; 2]%Z) (mk_seq [10; 20; 30]%Z) = Ok c' /\
    size c' = 4%N.
Proof.
  destruct (compound_assign_elementwise (T := intmax_t) plus
              (mk_seq [1; 2]%Z) (mk_seq [10; 20; 30]%Z)) as [Htotal Hresult];
    [reflexivity|].
  destruct Htotal as [c' Hrun]; [intros x y; by eexists|].
  exists c'. split; [exact Hrun|].
  destruct (Hresult c' Hrun) as (Hsize & _). exact Hsize.
Defined.

(** [(6,8) /= (2)]. *)
Lemma divide_by_shorter_container_witness :
  exists e, op_div_assign (T := intmax_t) (mk_seq [6; 8]%Z) (mk_seq [2%Z]) = Err e.
Proof.
  destruct (divide_by_shorter_container (mk_seq [6; 8]%Z) (mk_seq [2%Z]))
    as [Hdiv _]; [reflexivity|reflexivity|].
  exact Hdiv.
Defined.

(** [Mod_Op] with the divisor 3, by its second overload. *)
Lemma catalogue_overloads_agree_witness :
  apply_op Mod_Op rvalue_const 7%Z 3%Z = element_op Mod_Op 7%Z 3%Z.
Proof.
  apply (proj2 (catalogue_overloads_agree Mod_Op rvalue_const 7%Z 3%Z)).
  - reflexivity.
  - intros _. lia.
Defined.

(** [cshift(1)] on [(1,2,3)]: the last element wraps to the front. *)
Lemma cshift_moves_up_witness :
  op_index_const (T := intmax_t) (cshift 1 (mk_seq [1; 2; 3]%Z)) 0
  = op_index_const (mk_seq [1; 2; 3]%Z) 2.
Proof.
  apply (cshift_moves_up (T := intmax_t) 1 (mk_seq [1; 2; 3]%Z) 2).
  - unfold Int.INT_MIN, Int.INT_MAX. lia.
  - reflexivity.
Defined.

(** [cshift(1)] after [cshift(2)] on [(1,2,3)]. *)
Lemma cshift_cshift_witness :
  cshift (T := intmax_t) 1 (cshift 2 (mk_seq [1; 2; 3]%Z))
  = cshift (1 + 2) (mk_seq [1; 2; 3]%Z).
Proof.
  apply (cshift_cshift (T := intmax_t) 1 2 (mk_seq [1; 2; 3]%Z));
    unfold Int.INT_MIN, Int.INT_MAX; lia.
Defined.

(** [cshift(4)] and [cshift(1)] on [(1,2,3)]. *)
Lemma shift_amount_modulo_length_witness :
  cshift (T := intmax_t) 4 (mk_seq [1; 2; 3]%Z) = cshift 1 (mk_seq [1; 2; 3]%Z).
Proof.
  destruct (shift_amount_modulo_length (T := intmax_t) 4 1 (mk_seq [1; 2; 3]%Z))
    as [Hsame _].
  - reflexivity.
  - unfold Int.INT_MIN, Int.INT_MAX. lia.
  - unfold Int.INT_MIN, Int.INT_MAX. lia.
  - reflexivity.
  - exact Hsame.
Defined.

(** [shift(5)] on [(1,2,3)] moves by two places. *)
Lemma shift_moves_and_zero_fills_witness :
  shift (T := intmax_t) 5 (mk_seq [1; 2; 3]%Z) = Ok (mk_seq [0; 0; 1]%Z).
Proof.
  assert (0 < size (T := intmax_t) (mk_seq [1; 2; 3]%Z))%N as Hpos
    by reflexivity.
  assert (Int.INT_MIN < 5 <= Int.INT_MAX)%Z as Hk
    by (unfold Int.INT_MIN, Int.INT_MAX; lia).
  exact (shift_moves_and_zero_fills (T := intmax_t) 5 (mk_seq [1; 2; 3]%Z) Hpos Hk).
Defined.

(** The stream operator on [(1,2,3)], every element written as [x]. *)
Lemma stream_format_witness :
  op_stream (T := intmax_t) (fun _ => ["x"%char]) [] (mk_seq [1; 2; 3]%Z)
  = Ok ["("; "x"; ","; "x"; ","; "x"; ")"]%char.
Proof.
  destruct (stream_format (T := intmax_t) (fun _ => ["x"%char]) []
              1%Z [2; 3]%Z) as [Hout _]; [vm_compute; discriminate|].
  exact Hout.
Defined.

(** The store of the next witnesses: [m = (1,2)] at 0, [a = (3,4,5)] at 1
    and [b = (6)] at 2. *)
Local Abbreviation σ0 :=
  (<[0%nat := mk_seq [1; 2]%Z]>
     (<[1%nat := mk_seq [3; 4; 5]%Z]>
        (<[2%nat := mk_seq [6%Z]]> (∅ : store intmax_t)))).

(** Reading [(a * b)[1]] with [b] bound by a mutable reference. *)
Lemma expr_index_reads_and_grows_witness :
  exists v σ',
    expr_index (ExprTemplate (const_ref 1%nat) Mul_Op (mutable_ref 2%nat)) 1 σ0
    = Ok (v, σ') /\
    σ' !! 2%nat = Some (resize 2 (mk_seq [6%Z])) /\
    σ' !! 1%nat = Some (mk_seq [3; 4; 5]%Z).
Proof.
  destruct (expr_index_reads_and_grows (T := intmax_t)
              (ExprTemplate (const_ref 1%nat) Mul_Op (mutable_ref 2%nat)) 1 σ0)
    as [Hiff Heffect]; [reflexivity|].
  destruct (proj2 Hiff) as [[v σ'] Hrun]; [exists 0%Z; by vm_compute|].
  exists v, σ'. split; [exact Hrun|].
  destruct (Heffect v σ' Hrun) as (_ & Hconst & Hmutable & _). split.
  - apply (Hmutable 2%nat (mk_seq [6%Z])); by vm_compute.
  - rewrite Hconst; by vm_compute.
Defined.

(** [m += a * b]. *)
Lemma compound_assign_expr_elementwise_witness :
  exists σ' c',
    op_add_assign_expr 0%nat
      (ExprTemplate (const_ref 1%nat) Mul_Op (mutable_ref 2%nat)) σ0 = Ok σ' /\
    σ' !! 0%nat = Some c' /\ size c' = 4%N.
Proof.
  destruct (compound_assign_expr_elementwise (T := intmax_t) plus
              (ExprTemplate (const_ref 1%nat) Mul_Op (mutable_ref 2%nat))
              0%nat σ0 (mk_seq [1; 2]%Z) 3%N)
    as [Hreturns Hresult]; [by vm_compute..|].
  destruct (proj2 (Hreturns ltac:(intros a y; by eexists))) as [σ' Hrun].
  { intros i Hi. exists (if (i =? 0)%N then 18%Z else 0%Z).
    assert (i = 0 \/ i = 1 \/ i = 2)%N as [->|[->| ->]] by (change (i < 3)%N in Hi; lia);
      by vm_compute. }
  destruct (Hresult σ' Hrun) as (c' & Hσ' & Hsize & _).
  exists σ', c'. split; [exact Hrun|]. split; [|exact Hsize].
  rewrite Hσ'. apply (lookup_insert_eq (M := gmap loc)).
Defined.

(** [m += b], and [b += m], neither of them const. *)
Lemma compound_assign_container_operand_witness :
  op_add_assign_expr 2%nat (mutable_ref 2%nat) σ0
  = (c' ← op_add_assign (mk_seq [6%Z]) (mk_seq [6%Z]);
     Ok (<[2%nat := c']> (grow 1 {[2%nat]} σ0))) /\
  forall σ', op_add_assign_expr 0%nat (mutable_ref 2%nat) σ0 = Ok σ' ->
    σ' !! 2%nat = Some (resize 2 (mk_seq [6%Z])).
Proof.
  split.
  - destruct (compound_assign_container_operand (T := intmax_t) plus
                2%nat 2%nat σ0 (mk_seq [6%Z]) (mk_seq [6%Z]))
      as [Hsame _]; [by vm_compute..|].
    exact Hsame.
  - destruct (compound_assign_container_operand (T := intmax_t) plus
                0%nat 2%nat σ0 (mk_seq [1; 2]%Z) (mk_seq [6%Z]))
      as [_ Hgrown]; [by vm_compute..|].
    apply Hgrown; [discriminate|reflexivity].
Defined.

(** [m = a * b]. *)
Lemma op_assign_expr_elements_witness :
  exists σ' c',
    op_assign_expr 0%nat
      (ExprTemplate (const_ref 1%nat) Mul_Op (mutable_ref 2%nat)) σ0 = Ok σ' /\
    σ' !! 0%nat = Some c' /\ size c' = 4%N /\
    op_index_const c' 3 = Ok 0%Z.
Proof.
  destruct (op_assign_expr_elements (T := intmax_t)
              (ExprTemplate (const_ref 1%nat) Mul_Op (mutable_ref 2%nat))
              0%nat σ0 (mk_seq [1; 2]%Z) 3%N)
    as [Hreturns Hresult]; [by vm_compute..|].
  destruct (proj2 Hreturns) as [σ' Hrun].
  { intros i Hi. exists (if (i =? 0)%N then 18%Z else 0%Z).
    assert (i = 0 \/ i = 1 \/ i = 2)%N as [->|[->| ->]] by (change (i < 3)%N in Hi; lia);
      by vm_compute. }
  destruct (Hresult σ' Hrun) as (c' & Hσ' & Hsize & _ & _ & Hlast).
  exists σ', c'. split; [exact Hrun|]. split; [|split; [exact Hsize|]].
  - rewrite Hσ'. apply (lookup_insert_eq (M := gmap loc)).
  - apply Hlast. reflexivity.
Defined.

(** [SeqContainer x = a * b]. *)
Lemma construct_from_elements_witness :
  exists c' σ',
    construct_from
      (ExprTemplate (const_ref 1%nat) Mul_Op (mutable_ref 2%nat)) σ0
    = Ok (c', σ') /\
    size c' = 3%N /\ σ' = grow 3 {[2%nat]} σ0.
Proof.
  destruct (construct_from_elements (T := intmax_t)
              (ExprTemplate (const_ref 1%nat) Mul_Op (mutable_ref 2%nat)) σ0 3%N)
    as [Hreturns Hresult]; [by vm_compute|vm_compute; discriminate|].
  destruct (proj2 Hreturns) as [[c' σ'] Hrun].
  { intros i Hi. exists (if (i =? 0)%N then 18%Z else 0%Z).
    assert (i = 0 \/ i = 1 \/ i = 2)%N as [->|[->| ->]] by (change (i < 3)%N in Hi; lia);
      by vm_compute. }
  destruct (Hresult c' σ' Hrun) as (Hsize & Hσ' & _).
  exists c', σ'. split; [exact Hrun|]. split; [exact Hsize|exact Hσ'].
Defined.

(** [SeqContainer x = m + a]: the third element of [a] is dropped. *)
Lemma construct_from_truncates_witness :
  exists c' σ',
    construct_from (container_op Add_Op 0%nat (const_ref 1%nat)) σ0
    = Ok (c', σ') /\
    size c' = 2%N.
Proof.
  assert (construct_from (container_op Add_Op 0%nat (const_ref 1%nat)) σ0
          = Ok (mk_seq [4; 6]%Z, σ0)) as Hrun by (by vm_compute).
  exists (mk_seq [4; 6]%Z), σ0. split; [exact Hrun|].
  destruct (construct_from_truncates (T := intmax_t) Add_Op 0%nat
              (const_ref 1%nat) σ0 (mk_seq [1; 2]%Z) 3%N) with (mk_seq [4; 6]%Z) σ0
    as (Hsize & _).
  - by vm_compute.
  - by vm_compute.
  - vm_compute. discriminate.
  - vm_compute. discriminate.
  - exact Hrun.
  - exact Hsize.
Defined.

End MoreWitnesses.
